(** * Crash Street: the round engine of the crash game server

    A shallow embedding of the game server ([src/unnamed/part_001]: the
    [GameRoom] class and the socket handlers [place_bet] and [cash_out]) and of
    the balance ledger it calls ([src/unnamed/part_000]: [updateUserBalance],
    [findUserById]).

    - JavaScript numbers are IEEE 754 binary64 values: they are modelled by
      Rocq's primitive floats, whose operations are the same correctly rounded
      operations.  [Math.floor], [Math.max], [Number.prototype.toFixed] followed
      by [parseFloat], and [parseInt] are written out below from their
      ECMAScript definitions.
    - [CryptoJS.SHA256], [CryptoJS.HmacSHA256] and [Math.pow] belong to the host
      and its libraries: they are the methods of the class [Host], over which
      the room is defined and every statement about it is quantified.
    - A [GameRoom] object is a record; its [Map] of bets is a finite map keyed
      by user id.  Methods that mutate [this] return the new record.
    - The pending timer of a room ([setTimeout], [setInterval]) is a component
      of the system state; the clock and the random draws are inputs.
    - Messages sent with [emit] are collected in the order they are sent.
    - A socket handler is one step: the awaited ledger call completes inside
      the step (no other event of the room is interleaved with it, and no two
      ledger calls overlap on the connection they share).  The registry
      [rooms] is not modelled but for the volatilities it gives its rooms: a
      handler runs on the room that its [room] argument names.
    - The ledger is the two tables the code reads and writes; of the
      database engine, the one failure modelled is the refusal of a NULL
      [amount].

    The last part reads the growth function of [runGameLoop] as the code
    computes it, in binary64: what [toFixed(2)] makes of the value that
    [Math.pow] returns is stated of the rational number this value stands
    for, and the order of the exponents and of the multipliers is derived
    from the specification of the primitive floats, whose products and
    quotients are the exact results rounded to nearest. *)

From Stdlib Require Import ZArith Ascii String Floats QArith Qpower Lqa Lia.
From stdpp Require Import gmap strings pretty.

Set Warnings "-inexact-float".
Set Default Proof Using "Type".

(** ** JavaScript numbers *)

Module JS.

Open Scope float_scope.

(** An integer below 2^63 in absolute value as a number (exact below 2^53). *)
Definition of_Z (z : Z) : float :=
  match z with
  | Z0 => 0
  | Zpos _ => of_uint63 (Uint63.of_Z z)
  | Zneg p => - of_uint63 (Uint63.of_Z (Zpos p))
  end.

(** [Math.floor(x)]: the largest integral number not above [x]; NaN, the
    zeros and the infinities are returned as they are.  A finite [x] is
    [m * 2^e] with [m < 2^53]: for [e >= 0] it is integral already, otherwise
    the floor is [m] shifted right by [-e] bits (rounding down for negative
    [x]), an integer below 2^53. *)
Definition Math_floor (x : float) : float :=
  match Prim2SF x with
  | S754_finite s m e =>
      if (0 <=? e)%Z then x
      else of_Z (Z.shiftr (if s then Zneg m else Zpos m) (- e))
  | _ => x
  end.

(** [Math.max(a, b)]: NaN when an argument is NaN; [+0] is larger than [-0]. *)
Definition Math_max (a b : float) : float :=
  if is_nan a || is_nan b then nan
  else if a <? b then b
  else if b <? a then a
  else if get_sign a then b else a.

(** [parseFloat(x.toFixed(2))].  [toFixed(2)] writes [n / 100] for the
    integer [n] with [n / 100 - x] closest to zero, the larger [n] of two
    (for negative [x], the sign and then the digits of [-x]); [parseFloat]
    reads the digits back as the nearest number.  NaN and the infinities are
    written as their names and read back.  From 2^46 on, the numbers are at
    least 1/64 apart, [n / 100] is within 1/200 of [x], and above 10^21
    [toFixed] writes all the digits of [x]: reading back gives [x]. Below 2^46,
    [n < 2^53] is exact and [n / 100] is one correctly rounded division. *)
Definition toFixed2 (x : float) : float :=
  match Prim2SF x with
  | S754_zero _ => 0
  | S754_finite s m e =>
      if (-6 <=? e)%Z then x
      else
        let n := Z.shiftr (200 * Zpos m + Z.shiftl 1 (- e)) (- e + 1) in
        let r := of_Z n / 100 in
        if s then - r else r
  | _ => x
  end.

(** The value of a hexadecimal digit. *)
Definition hex_digit (c : ascii) : option Z :=
  let n := Z.of_N (N_of_ascii c) in
  if (48 <=? n)%Z && (n <=? 57)%Z then Some (n - 48)%Z
  else if (97 <=? n)%Z && (n <=? 102)%Z then Some (n - 87)%Z
  else if (65 <=? n)%Z && (n <=? 70)%Z then Some (n - 55)%Z
  else None.

(** The longest prefix of hexadecimal digits of [s] read in base 16, from the
    accumulator [acc]; [seen] tells whether a digit was read. *)
Fixpoint parse_hex (s : string) (acc : Z) (seen : bool) : option Z :=
  match s with
  | EmptyString => if seen then Some acc else None
  | String c rest =>
      match hex_digit c with
      | Some d => parse_hex rest (16 * acc + d)%Z true
      | None => if seen then Some acc else None
      end
  end.

(** [parseInt(s, 16)] on a string of digits: the integer read from the
    longest prefix of hexadecimal digits, [None] (NaN) when there is none.
    (White space, a sign and a [0x] prefix, which a digest never has, are not
    modelled.)  Up to 13 digits the integer is below 2^52 and exact. *)
Definition parseInt16 (s : string) : option Z := parse_hex s 0%Z false.

(** [s.substring(0, n)]. *)
Definition substring0 (n : nat) (s : string) : string := String.substring 0 n s.

(** A number as an index (ToIntegerOrInfinity): NaN is 0, a finite number is
    truncated towards zero, an infinity ([None]) is out of every range. *)
Definition to_index (x : float) : option Z :=
  match Prim2SF x with
  | S754_nan | S754_zero _ => Some 0%Z
  | S754_finite s m e =>
      let z := if (0 <=? e)%Z then Z.shiftl (Zpos m) e else Z.shiftr (Zpos m) (- e) in
      Some (if s then (- z)%Z else z)
  | S754_infinity _ => None
  end.

(** [s.charAt(pos)]: the empty string when [pos] is out of range. *)
Definition charAt (s : string) (pos : float) : string :=
  match to_index pos with
  | Some i =>
      if (i <? 0)%Z then EmptyString
      else match String.get (Z.to_nat i) s with
           | Some c => String c EmptyString
           | None => EmptyString
           end
  | None => EmptyString
  end.

End JS.

(** ** The ledger: [updateUserBalance] and [findUserById] of database.js *)

Module Ledger.

Open Scope float_scope.

(** A row of the [transactions] table (the columns the code writes). *)
Record Transaction := {
  user_id : Z;
  type : string;
  amount : float;
  external_id : string
}.

(** The database: the [balance] column of the [users] table by user [id], and
    the [transactions] table in insertion order. *)
Record Db := {
  users : gmap Z float;
  transactions : list Transaction
}.

(** How an awaited promise settles. *)
Inductive Promise (A : Type) :=
  | Resolved (value : A)
  | Rejected (message : string).
Arguments Resolved {A} value.
Arguments Rejected {A} message.

(** The message of the error with which SQLite refuses a NULL [amount]. *)
Definition amount_not_null : string :=
  "SQLITE_CONSTRAINT: NOT NULL constraint failed: transactions.amount".

(** [updateUserBalance(userId, amount, type, externalId)]: one transaction.
    A rejection rolls back: the database returned is the one received.

    SQLite stores no NaN: a NaN bound to a statement is written as NULL.  So
    a [balance] that is NaN in [users] stands for a NULL balance, which the
    SELECT reads as [null] and the sum takes for 0; and an [amount] that is
    NaN cannot be inserted into [transactions], whose column [amount] is
    declared [NOT NULL]: the INSERT fails after the UPDATE, and the catch
    block rolls back and rejects with the error of SQLite.  Other failures of
    the database engine are not modelled. *)
Definition updateUserBalance (db : Db) (userId : Z) (amount : float)
    (type : string) (externalId : string) : Promise float * Db :=
  match users db !! userId with
  | None => (Rejected "User not found", db)
  | Some balance =>
      let newBalance := (if is_nan balance then 0 else balance) + amount in
      if newBalance <? 0 then (Rejected "Insufficient funds", db)
      else if is_nan amount then (Rejected amount_not_null, db)
      else
        (Resolved newBalance,
         {| users := <[userId := newBalance]> (users db);
            transactions :=
              transactions db ++
              [{| user_id := userId; type := type; amount := abs amount;
                  external_id := externalId |}] |})
  end.

(** [findUserById(id)], read for its [balance]: [None] is [undefined], and a
    NaN is the [null] of a NULL balance. *)
Definition findUserById (db : Db) (id : Z) : option float := users db !! id.

End Ledger.

(** ** The game room *)

Import JS Ledger.
Open Scope float_scope.

(** A bet of the [bets] map: [{ amount, cashedOut, winAmount }]. *)
Record Bet := {
  amount : float;
  cashedOut : bool;
  winAmount : float
}.

(** The fields of a [GameRoom] object.  Times are milliseconds ([Date.now()]).
    The seeds are [null] only inside the constructor, before [rotateSeed]
    assigns them; the record holds the empty string there. *)
Record GameRoom := {
  ticker : string;
  lambda : float;
  roomName : string;
  isRunning : bool;
  multiplier : float;
  startTime : Z;
  crashPoint : float;
  bets : gmap Z Bet;
  serverSeed : string;
  serverSeedHash : string;
  nonce : Z
}.

(** What is emitted: to the room ([io.to(roomName).emit]) the events
    [game_start], [tick] and [crash]; to one socket the others. *)
Inductive Message :=
  | game_start (ticker : string) (nonce : Z) (hash : string) (startTime : Z)
  | tick (multiplier : float)
  | crash (multiplier : float) (serverSeed : string)
  | bet_error (reason : string)
  | bet_success (amount : float)
  | balance_update (balance : float)
  | error (reason : string)
  | cash_out_success (multiplier : float) (winAmount : float).

(** The receiver of a message: every socket of the room, or one user's. *)
Inductive Target :=
  | to_room (roomName : string)
  | to_socket (user : Z).

(** The timer a room has pending: the [setTimeout] of [startGame] (betting
    phase), the [setInterval] of [runGameLoop] with its [loopStart], the
    [setTimeout] of [crashGame], or none. *)
Inductive Timer :=
  | BettingTimeout
  | TickInterval (loopStart : Z)
  | CrashTimeout
  | NoTimer.

(** A room with its timer, the database, and the messages emitted so far in
    the order they were sent. *)
Record System := {
  game : GameRoom;
  timer : Timer;
  db : Db;
  emitted : list (Target * Message)
}.

(** The phases of the specification, read off the pending timer. *)
Inductive Phase := BETTING | RUNNING | CRASHED.

Definition phase (s : System) : option Phase :=
  match timer s with
  | BettingTimeout => Some BETTING
  | TickInterval _ => Some RUNNING
  | CrashTimeout => Some CRASHED
  | NoTimer => None
  end.

(** What arrives at a room: the pending timeout fires (at time [now]; [rnd]
    are the values [Math.random()] returns should the callback draw a seed),
    the interval fires, or a user's socket sends a command. *)
Inductive Input :=
  | Timeout_fires (now : Z) (rnd : nat -> float)
  | Interval_fires (now : Z)
  | Place_bet (user : Z) (amount : float)
  | Cash_out (user : Z).

(** What the room takes from its host and from CryptoJS:
    [CryptoJS.SHA256(m).toString()] and [CryptoJS.HmacSHA256(m, key).toString()]
    (digests written in hexadecimal), and [Math.pow]. *)
Class Host := {
  SHA256 : string -> string;
  HmacSHA256 : string -> string -> string;
  Math_pow : float -> float -> float
}.

(** The [nonce] and [hash] of the last [game_start] among the messages [tr],
    [current] when there is none. *)
Fixpoint last_start (current : option (Z * string)) (tr : list (Target * Message))
    : option (Z * string) :=
  match tr with
  | [] => current
  | (_, game_start _ nonce hash _) :: rest => last_start (Some (nonce, hash)) rest
  | _ :: rest => last_start current rest
  end.

(** An auditor reads the messages in the order they were sent and checks
    every [crash] against the [game_start] of its round, the last one sent
    before it: [P nonce hash multiplier serverSeed] must hold.  A [crash] with
    no [game_start] before it fails the audit. *)
Fixpoint audit (P : Z -> string -> float -> string -> Prop)
    (current : option (Z * string)) (tr : list (Target * Message)) : Prop :=
  match tr with
  | [] => True
  | (_, game_start _ nonce hash _) :: rest => audit P (Some (nonce, hash)) rest
  | (_, crash multiplier serverSeed) :: rest =>
      match current with
      | Some (nonce, hash) => P nonce hash multiplier serverSeed
      | None => False
      end /\ audit P current rest
  | _ :: rest => audit P current rest
  end.

Section Room.

Context {host : Host}.

Definition Math_E : float := 2.718281828459045.

(** The loop of [rotateSeed]: from index [i], [n] more characters appended to
    [result], each [chars.charAt(Math.floor(Math.random() * chars.length))]. *)
Definition chars : string := "abcdef0123456789".

Fixpoint draw_seed (rnd : nat -> float) (i n : nat) (result : string) : string :=
  match n with
  | O => result
  | S n' =>
      draw_seed rnd (S i) n'
        (result ++ charAt chars (Math_floor (rnd i * of_Z (Z.of_nat (String.length chars)))))
  end.

(** [rotateSeed()]. *)
Definition rotateSeed (rnd : nat -> float) (this : GameRoom) : GameRoom :=
  let result := draw_seed rnd 0 64 "" in
  {| ticker := ticker this; lambda := lambda this; roomName := roomName this;
     isRunning := isRunning this; multiplier := multiplier this;
     startTime := startTime this; crashPoint := crashPoint this;
     bets := bets this;
     serverSeed := result;
     serverSeedHash := SHA256 result;
     nonce := (nonce this + 1)%Z |}.

(** [getCrashPoint()].  [parseInt] of 13 digits is an integer below 2^52, so
    its remainder by 13 is the integer remainder; when [parseInt] is NaN the
    test [NaN % 13 === 0] is false. *)
Definition getCrashPoint (this : GameRoom) : float :=
  let combo := (serverSeed this ++ ":" ++ pretty (nonce this))%string in
  let hash := HmacSHA256 combo (serverSeed this) in
  if match parseInt16 (substring0 13 hash) with
     | Some n => (n mod 13 =? 0)%Z
     | None => false
     end
  then 1.00
  else
    let h := match parseInt16 (substring0 8 hash) with
             | Some n => of_Z n
             | None => nan
             end in
    let e := 4294967296 in
    let result := Math_floor ((100 * 0.99) / (1 - (h / e))) / 100 in
    Math_max 1.00 result.

(** [startGame()], called at time [now]. *)
Definition startGame (rnd : nat -> float) (now : Z) (s : System) : System :=
  if isRunning (game s) then s
  else
    let this := rotateSeed rnd (game s) in
    let this :=
      {| ticker := ticker this; lambda := lambda this; roomName := roomName this;
         isRunning := true;
         multiplier := 1.00;
         startTime := (now + 6000)%Z;
         crashPoint := getCrashPoint this;
         bets := ∅;
         serverSeed := serverSeed this; serverSeedHash := serverSeedHash this;
         nonce := nonce this |} in
    {| game := this;
       timer := BettingTimeout;
       db := db s;
       emitted := emitted s ++
         [(to_room (roomName this),
           game_start (ticker this) (nonce this) (serverSeedHash this) (startTime this))] |}.

(** [runGameLoop()], called at time [now]: it only sets the interval. *)
Definition runGameLoop (now : Z) (s : System) : System :=
  {| game := game s; timer := TickInterval now; db := db s; emitted := emitted s |}.

(** [crashGame()]; the caller then clears the interval, so that the timeout
    set here is the one timer left. *)
Definition crashGame (s : System) : System :=
  let this := game s in
  {| game :=
       {| ticker := ticker this; lambda := lambda this; roomName := roomName this;
          isRunning := false;
          multiplier := multiplier this; startTime := startTime this;
          crashPoint := crashPoint this; bets := bets this;
          serverSeed := serverSeed this; serverSeedHash := serverSeedHash this;
          nonce := nonce this |};
     timer := CrashTimeout;
     db := db s;
     emitted := emitted s ++
       [(to_room (roomName this), crash (crashPoint this) (serverSeed this))] |}.

(** The growth function sampled by the interval callback at [elapsed]
    seconds. *)
Definition sample (lambda elapsed : float) : float :=
  let k := 0.065 * (2.0 / lambda) in
  let M := Math_pow Math_E (k * elapsed * 2.5) in
  Math_max 1.00 (toFixed2 M).

(** The callback of [setInterval] in [runGameLoop], run at time [now]. *)
Definition tick_callback (loopStart now : Z) (s : System) : System :=
  let this := game s in
  let elapsed := of_Z (now - loopStart) / 1000 in
  let this :=
    {| ticker := ticker this; lambda := lambda this; roomName := roomName this;
       isRunning := isRunning this;
       multiplier := sample (lambda this) elapsed;
       startTime := startTime this; crashPoint := crashPoint this;
       bets := bets this;
       serverSeed := serverSeed this; serverSeedHash := serverSeedHash this;
       nonce := nonce this |} in
  let s := {| game := this; timer := timer s; db := db s; emitted := emitted s |} in
  if crashPoint this <=? multiplier this then crashGame s
  else
    {| game := this; timer := timer s; db := db s;
       emitted := emitted s ++ [(to_room (roomName this), tick (multiplier this))] |}.

(** The [externalId] both handlers pass to the ledger. *)
Definition externalId (room : string) (game : GameRoom) : string :=
  ("room:" ++ room ++ ":nonce:" ++ pretty (nonce game))%string.

Definition set_bets (this : GameRoom) (b : gmap Z Bet) : GameRoom :=
  {| ticker := ticker this; lambda := lambda this; roomName := roomName this;
     isRunning := isRunning this; multiplier := multiplier this;
     startTime := startTime this; crashPoint := crashPoint this;
     bets := b;
     serverSeed := serverSeed this; serverSeedHash := serverSeedHash this;
     nonce := nonce this |}.

(** The [place_bet] handler of the socket of user [user] for the room [game]
    found under the name [room]: the room and the database afterwards, and
    the messages emitted to the socket, in order. *)
Definition place_bet (game : GameRoom) (db : Db) (user : Z) (room : string)
    (amount : float) : GameRoom * Db * list Message :=
  if 1.0 <? multiplier game then (game, db, [bet_error "Game already started"])
  else if amount <=? 0 then (game, db, [bet_error "Invalid amount"])
  else
    match updateUserBalance db user (- amount) "bet" (externalId room game) with
    | (Rejected message, db) => (game, db, [bet_error message])
    | (Resolved _, db) =>
        let game :=
          set_bets game
            (<[user := {| amount := amount; cashedOut := false; winAmount := 0 |}]>
               (bets game)) in
        match findUserById db user with
        | Some balance => (game, db, [bet_success amount; balance_update balance])
        | None =>
            (game, db,
             [bet_success amount;
              bet_error "Cannot read properties of undefined (reading 'balance')"])
        end
    end.

(** The [cash_out] handler.  A rejected credit is only logged to the console:
    nothing is emitted. *)
Definition cash_out (game : GameRoom) (db : Db) (user : Z) (room : string)
    : GameRoom * Db * list Message :=
  if negb (isRunning game) then (game, db, [error "Game not running"])
  else
    match bets game !! user with
    | None => (game, db, [error "No active bet"])
    | Some bet =>
        if cashedOut bet then (game, db, [error "Already cashed out"])
        else
          let currentMult := multiplier game in
          if crashPoint game <? currentMult then (game, db, [error "Crashed!"])
          else
            let winAmount := Math_floor (amount bet * currentMult) in
            let game1 :=
              set_bets game
                (<[user := {| amount := amount bet; cashedOut := true;
                              winAmount := winAmount |}]> (bets game)) in
            match updateUserBalance db user winAmount "win" (externalId room game) with
            | (Resolved _, db) =>
                match findUserById db user with
                | Some balance =>
                    (game1, db,
                     [cash_out_success currentMult winAmount; balance_update balance])
                | None => (game1, db, [cash_out_success currentMult winAmount])
                end
            | (Rejected _, db) => (game1, db, [])
            end
    end.

(** A handler run on the room of the system, its messages sent to the
    socket of [user]. *)
Definition handle (user : Z) (r : GameRoom * Db * list Message) (s : System) : System :=
  let '(game, db, out) := r in
  {| game := game; timer := timer s; db := db;
     emitted := emitted s ++ map (fun m => (to_socket user, m)) out |}.

(** One event of the room.  A timer that is not pending does not fire. *)
Definition step (s : System) (i : Input) : System :=
  match i with
  | Timeout_fires now rnd =>
      match timer s with
      | BettingTimeout => runGameLoop now s
      | CrashTimeout =>
          startGame rnd now
            {| game := game s; timer := NoTimer; db := db s; emitted := emitted s |}
      | _ => s
      end
  | Interval_fires now =>
      match timer s with
      | TickInterval loopStart => tick_callback loopStart now s
      | _ => s
      end
  | Place_bet user amount =>
      handle user (place_bet (game s) (db s) user (roomName (game s)) amount) s
  | Cash_out user =>
      handle user (cash_out (game s) (db s) user (roomName (game s))) s
  end.

Definition run (s : System) (inputs : list Input) : System := fold_left step inputs s.

(** [new GameRoom(ticker, lambda, roomName)] at time [now], with the database
    [db]: the constructor calls [rotateSeed] (drawing [rnd0]) and then, through
    [startDateLoop], [startGame] (drawing [rnd1]). *)
Definition new_GameRoom (ticker : string) (lambda : float) (roomName : string)
    (rnd0 rnd1 : nat -> float) (now : Z) (db : Db) : System :=
  let this :=
    {| ticker := ticker; lambda := lambda; roomName := roomName;
       isRunning := false; multiplier := 1.00; startTime := 0; crashPoint := 0;
       bets := ∅; serverSeed := ""; serverSeedHash := ""; nonce := 0 |} in
  let this := rotateSeed rnd0 this in
  startGame rnd1 now {| game := this; timer := NoTimer; db := db; emitted := [] |}.

(** *** What an auditor recomputes *)

(** The crash point as the specification derives it from a disclosed seed
    and a nonce: the keyed digest of ["<serverSeed>:<nonce>"] under the key
    [serverSeed]; [1.00] when the integer of its first 13 hexadecimal
    characters is divisible by 13; otherwise, with [h] the integer of its first
    8 characters, [max(1.00, floor(100 * 0.99 / (1 - h / 2^32)) / 100)].  A
    digest that does not start with a hexadecimal digit gives NaN. *)
Definition derived_crash_point (serverSeed : string) (nonce : Z) : float :=
  let digest := HmacSHA256 (serverSeed ++ ":" ++ pretty nonce)%string serverSeed in
  match parseInt16 (substring0 13 digest), parseInt16 (substring0 8 digest) with
  | Some n, Some h =>
      if (n mod 13 =? 0)%Z then 1.00
      else Math_max 1.00 (Math_floor (100 * 0.99 / (1 - of_Z h / 4294967296)) / 100)
  | _, _ => nan
  end.

(** What an auditor checks when a round ends: the [hash] published at its
    start is the digest of the [serverSeed] disclosed, and the crash point
    broadcast is the one derived from that seed and the [nonce] published. *)
Definition round_verifies (nonce : Z) (hash : string) (multiplier : float)
    (serverSeed : string) : Prop :=
  hash = SHA256 serverSeed /\ multiplier = derived_crash_point serverSeed nonce.

(** What holds of a room at every moment, as is proved below: its hash is
    the digest of its seed, its crash point is the one derived from its seed
    and nonce, the last [game_start] published this nonce and this hash, and
    every round that has ended verifies. *)
Definition fair (s : System) : Prop :=
  serverSeedHash (game s) = SHA256 (serverSeed (game s)) /\
  crashPoint (game s) = derived_crash_point (serverSeed (game s)) (nonce (game s)) /\
  last_start None (emitted s) = Some (nonce (game s), serverSeedHash (game s)) /\
  audit round_verifies None (emitted s).

End Room.

(** Of what a handler returns, the room and the messages emitted. *)
Definition room_after (r : GameRoom * Db * list Message) : GameRoom := r.1.1.
Definition emits (r : GameRoom * Db * list Message) : list Message := r.2.

(** The messages of the handlers, as opposed to those that start a round,
    sample it or end it. *)
Definition to_one_socket (m : Message) : Prop :=
  match m with
  | game_start _ _ _ _ | tick _ | crash _ _ => False
  | _ => True
  end.

(** The commands of users, as opposed to the timers. *)
Definition is_command (i : Input) : Prop :=
  match i with
  | Place_bet _ _ | Cash_out _ => True
  | _ => False
  end.

(** How the flag [isRunning] and the multiplier stand to the pending timer
    at every moment, as is proved below. *)
Definition in_phase (s : System) : Prop :=
  match timer s with
  | BettingTimeout => isRunning (game s) = true /\ multiplier (game s) = 1.00
  | TickInterval _ => isRunning (game s) = true
  | CrashTimeout => isRunning (game s) = false
  | NoTimer => False
  end.

(** While [isRunning] is set the multiplier is not above the crash point;
    the multiplier is a number from 1.00 upwards, or NaN should [Math.pow]
    return NaN. *)
Definition in_range (s : System) : Prop :=
  (isRunning (game s) = true -> (crashPoint (game s) <? multiplier (game s)) = false) /\
  (multiplier (game s) = nan \/ (1.00 <=? multiplier (game s)) = true).

(** ** The growth function *)

(** The rational number a finite binary64 value stands for: [m * 2^e] with
    its sign; NaN and the infinities stand for none. *)
Definition exact (x : float) : option Q :=
  match Prim2SF x with
  | S754_zero _ => Some 0%Q
  | S754_finite s m e =>
      let z := if s then Zneg m else Zpos m in
      Some (if (0 <=? e)%Z then inject_Z (z * 2 ^ e) else z # Z.to_pos (2 ^ (- e)))
  | _ => None
  end.

(** *** Rounding

    The operations of binary64 give the number of the format nearest to the
    exact result, the one with the even mantissa of two
    ([binary_round_aux] in the specification of the primitive floats).  That
    they keep the order of the numbers is proved below, with these notions. *)

Section Rounding_notions.

Local Open Scope Z_scope.

(** [2^e] for an integer [e]. *)
Definition pow2 (e : Z) : Q := (2 ^ e)%Q.

(** The value [m * 2^e] of a positive finite number. *)
Definition value (m : positive) (e : Z) : Q := (inject_Z (Z.pos m) * pow2 e)%Q.

(** Where [q] lies from the integer [m] to the next, as a location tells
    it: at [m], below the middle, in the middle, or above it. *)
Definition located (m : Z) (l : location) (q : Q) : Prop :=
  match l with
  | loc_Exact => (q == inject_Z m)%Q
  | loc_Inexact Lt => (inject_Z m < q /\ q < inject_Z m + (1 # 2))%Q
  | loc_Inexact Eq => (q == inject_Z m + (1 # 2))%Q
  | loc_Inexact Gt => (inject_Z m + (1 # 2) < q /\ q < inject_Z m + 1)%Q
  end.

(** The number with the mantissa [M], from 0 to 2^53, and the exponent [E]:
    a zero, [M * 2^E] with its mantissa below 2^53, or the infinity from
    the exponent 972 on. *)
Definition finish (M E : Z) : spec_float :=
  if M =? 0 then S754_zero false
  else if M =? 9007199254740992 then
    if E + 1 <=? 971 then S754_finite false 4503599627370496 (E + 1)
    else S754_infinity false
  else if E <=? 971 then S754_finite false (Z.to_pos M) E
  else S754_infinity false.

(** [r] is the rounding of the positive number [x]: [x] lies from [2^(g-1)]
    up to [2^g], on the grid of step [2^E], [E = fexp g], it lies at [m1] as
    [l1] tells, and [r] has the mantissa nearest to it, the even one of
    two. *)
Definition rounds_to (x : Q) (r : spec_float) : Prop :=
  exists (g m1 : Z) (l1 : location),
    (pow2 (g - 1) <= x)%Q /\ (x < pow2 g)%Q /\ 0 <= m1 /\
    (forall y : Q, (y * pow2 (fexp prec emax g) == x)%Q -> located m1 l1 y) /\
    r = finish (round_nearest_even m1 l1) (fexp prec emax g).

End Rounding_notions.

(** The volatilities of the rooms the server creates: CORLA, BRKR, NFTX,
    ETHRX and TSLR. *)
Definition volatilities : list float := [2.5; 1.75; 1.4; 1.0; 0.75].

(** The [round2] of the specification: truncation to 2 decimal places.  The
    digits of [x] are cut after the second decimal place (for a finite
    [x = m * 2^e] with [e < 0], the integer [n] is the floor of [100 * |x|])
    and read back as [toFixed2] reads its digits. *)
Definition truncate2 (x : float) : float :=
  match Prim2SF x with
  | S754_zero _ => 0
  | S754_finite s m e =>
      if (0 <=? e)%Z then x
      else
        let n := Z.shiftr (100 * Zpos m) (- e) in
        let r := of_Z n / 100 in
        if s then - r else r
  | _ => x
  end.

(** The multiplier of the specification at [elapsed] seconds:
    [max(1.00, round2(e^(k * t * 2.5)))] with [round2] truncating. *)
Definition truncated_sample {host : Host} (lambda elapsed : float) : float :=
  let k := 0.065 * (2.0 / lambda) in
  let M := Math_pow Math_E (k * elapsed * 2.5) in
  Math_max 1.00 (truncate2 M).

(** ** A room at work *)

(** The exponential series, summed from its 24th term down. *)
Fixpoint exp_series (n : nat) (i : Z) (x acc : float) : float :=
  match n with
  | O => acc
  | S n' => exp_series n' (i - 1) x (1 + x / of_Z i * acc)
  end.

(** A host for running the room on examples.  Its digests are constant: the
    SHA-256 digest of the empty message, and a digest that starts with
    [80000000], which gives the crash point 1.98.  Its [Math.pow] is the
    exponential series in the exponent, as good as [Math.pow(Math.E, x)] on
    the small exponents of the examples.  No statement below depends on this
    host but the examples that name it. *)
Definition demo_host : Host := {|
  SHA256 := fun _ =>
    "e3b0c44298fc1c149afbf4c8996fb92427ae41e4649b934ca495991b7852b855";
  HmacSHA256 := fun _ _ =>
    "8000000000000000000000000000000000000000000000000000000000000001";
  Math_pow := fun _ x => exp_series 24 24 x 1
|}.

Definition demo_step : System -> Input -> System := @step demo_host.
Definition demo_run : System -> list Input -> System := @run demo_host.

(** User 7 has a balance of 1000. *)
Definition db_1000 : Db := {| users := {[ 7%Z := 1000 ]}; transactions := [] |}.

(** A database that has lost the row of user 7. *)
Definition db_no_user : Db := {| users := ∅; transactions := [] |}.

(** Two sequences of values of [Math.random()]: 0.5 at every draw, and
    [i / 64] at draw [i]. *)
Definition draws_half (i : nat) : float := 0.5.
Definition draws_sweep (i : nat) : float := of_Z (Z.of_nat i) / 64.

(** The room ETHRX, constructed at time 1000: its first betting phase, with
    the running start time 7000. *)
Definition ethrx : System :=
  @new_GameRoom demo_host "$ETHRX" 1.0 "ETHRX" draws_half draws_sweep 1000 db_1000.

(** What arrives at ETHRX until its first round is under way: user 7 stakes
    100, the betting timeout fires at 7003, the interval fires twice. *)
Definition first_inputs : list Input :=
  [Place_bet 7 100; Timeout_fires 7003 draws_half; Interval_fires 7053;
   Interval_fires 8003].

(** ETHRX in its first round, at the multiplier 1.38. *)
Definition ethrx_running : System := demo_run ethrx first_inputs.

(** The same room when the interval fires next, at 10000: the sample 2.65 is
    above the crash point 1.98. *)
Definition ethrx_crashed : System :=
  demo_run ethrx (first_inputs ++ [Interval_fires 10000]).

(** * Properties *)

(** ** The order of numbers *)

Lemma SFcompare_antisym (f1 f2 : spec_float) :
  SFcompare f2 f1 = option_map CompOpp (SFcompare f1 f2).
Proof.
  destruct f1 as [s1| s1| |s1 m1 e1], f2 as [s2| s2| |s2 m2 e2]; simpl;
    try destruct s1; try destruct s2; try reflexivity;
    rewrite (Z.compare_antisym e1 e2); destruct (e1 ?= e2)%Z; simpl; try reflexivity;
    change Eq with (CompOpp Eq) at 1;
    rewrite <- (Pos.compare_cont_antisym m1 m2 Eq); reflexivity.
Qed.

(** [x < y] implies [x <= y]. *)
Lemma ltb_leb (x y : float) : (x <? y) = true -> (x <=? y) = true.
Proof.
  rewrite ltb_spec, leb_spec. unfold SFltb, SFleb.
  destruct (SFcompare (Prim2SF x) (Prim2SF y)) as [[]|]; congruence.
Qed.

(** [x < y] excludes [y < x]. *)
Lemma ltb_asym (x y : float) : (x <? y) = true -> (y <? x) = false.
Proof.
  rewrite !ltb_spec. unfold SFltb. rewrite (SFcompare_antisym (Prim2SF x)).
  destruct (SFcompare (Prim2SF x) (Prim2SF y)) as [[]|]; simpl; congruence.
Qed.

(** A number that is at least 1 and not above 1 is 1. *)
Lemma leb_one_not_ltb (m : float) :
  (1 <=? m) = true -> (1 <? m) = false -> m = 1.
Proof.
  rewrite ltb_spec, leb_spec. unfold SFltb, SFleb. intros Hle Hlt.
  assert (Heq : SFcompare (Prim2SF 1) (Prim2SF m) = Some Eq)
    by (destruct (SFcompare (Prim2SF 1) (Prim2SF m)) as [[]|]; congruence).
  clear Hle Hlt.
  rewrite <- (SF2Prim_Prim2SF m).
  change (Prim2SF 1) with (S754_finite false 4503599627370496 (-52)) in Heq.
  destruct (Prim2SF m) as [s| s| |s p e]; cbn [SFcompare] in Heq;
    try discriminate; destruct s; try discriminate.
  destruct (-52 ?= e)%Z eqn:He; try discriminate.
  apply Z.compare_eq in He. injection Heq as Heq.
  apply (Pos.compare_eq 4503599627370496 p) in Heq. subst. reflexivity.
Qed.

(** [Math.max(1, x)] is NaN, or 1, or [x] itself above 1. *)
Lemma Math_max_one (x : float) :
  Math_max 1 x = nan \/ Math_max 1 x = 1 \/ (1 <? Math_max 1 x) = true.
Proof.
  unfold Math_max.
  destruct (is_nan 1 || is_nan x); [now left|].
  destruct (1 <? x) eqn:H1; [now right; right|].
  destruct (x <? 1); [now right; left|].
  right; left. reflexivity.
Qed.

(** ** The ledger *)

(** A rejected update leaves the database as it was; the ledger rejects for
    three reasons. *)
Lemma updateUserBalance_rejected (db : Db) (userId : Z) (amount : float)
    (type externalId message : string) (db' : Db) :
  updateUserBalance db userId amount type externalId = (Rejected message, db') ->
  db' = db /\
  (message = "User not found" \/ message = "Insufficient funds" \/
   message = amount_not_null).
Proof.
  unfold updateUserBalance.
  destruct (users db !! userId) as [balance|];
    [destruct (_ + amount <? 0); [|destruct (is_nan amount)]|];
    intros [= <- <-]; auto.
Qed.

(** A resolved update writes the sum as the balance of the user and appends
    one transaction; the balance it returns is the one [findUserById] reads. *)
Lemma updateUserBalance_resolved (db : Db) (userId : Z) (amount : float)
    (type externalId : string) (newBalance : float) (db' : Db) :
  updateUserBalance db userId amount type externalId = (Resolved newBalance, db') ->
  exists balance,
    users db !! userId = Some balance /\
    newBalance = (if is_nan balance then 0 else balance) + amount /\
    (newBalance <? 0) = false /\
    is_nan amount = false /\
    users db' = <[userId := newBalance]> (users db) /\
    transactions db' =
      transactions db ++
      [{| user_id := userId; type := type; Ledger.amount := abs amount;
          external_id := externalId |}] /\
    findUserById db' userId = Some newBalance.
Proof.
  unfold updateUserBalance, findUserById.
  destruct (users db !! userId) as [balance|]; [|discriminate].
  destruct (_ + amount <? 0) eqn:Hneg; [discriminate|].
  destruct (is_nan amount) eqn:Hnan; [discriminate|].
  intros [= <- <-]. exists balance. simpl.
  rewrite lookup_insert_eq. auto 10.
Qed.

(** When the ledger settles which way: it rejects when the user has no row,
    when the sum is negative, and when the amount is not a number; it
    resolves otherwise. *)
Lemma updateUserBalance_settles (db : Db) (userId : Z) (amount : float)
    (type externalId : string) :
  match users db !! userId with
  | None =>
      updateUserBalance db userId amount type externalId
        = (Rejected "User not found", db)
  | Some balance =>
      let newBalance := (if is_nan balance then 0 else balance) + amount in
      if newBalance <? 0 then
        updateUserBalance db userId amount type externalId
          = (Rejected "Insufficient funds", db)
      else if is_nan amount then
        updateUserBalance db userId amount type externalId
          = (Rejected amount_not_null, db)
      else
        exists db',
          updateUserBalance db userId amount type externalId
            = (Resolved newBalance, db')
  end.
Proof.
  unfold updateUserBalance.
  destruct (users db !! userId) as [balance|]; [|reflexivity].
  cbv zeta. destruct (_ + amount <? 0); [reflexivity|].
  destruct (is_nan amount); [reflexivity|eauto].
Qed.

(** ** The handlers on a room *)

(** [place_bet] when the ledger rejects the debit: the room and the database
    stay as they were, and the socket is told. *)
Lemma place_bet_rejected_debit (game : GameRoom) (db : Db) (user : Z)
    (room : string) (amount : float) (message : string) (db' : Db) :
  (1.0 <? multiplier game) = false ->
  (amount <=? 0) = false ->
  updateUserBalance db user (- amount) "bet" (externalId room game)
    = (Rejected message, db') ->
  place_bet game db user room amount = (game, db, [bet_error message]).
Proof.
  intros Hm Ha Hu. unfold place_bet. rewrite Hm, Ha, Hu.
  apply updateUserBalance_rejected in Hu as [-> _]. reflexivity.
Qed.

(** [cash_out] when the ledger rejects the credit: the bet has been marked
    cashed out with its [winAmount] before the call, and stays so; nothing is
    emitted. *)
Lemma cash_out_rejected_credit (game : GameRoom) (db : Db) (user : Z)
    (room : string) (bet : Bet) (message : string) (db' : Db) :
  isRunning game = true ->
  bets game !! user = Some bet ->
  cashedOut bet = false ->
  (crashPoint game <? multiplier game) = false ->
  updateUserBalance db user (Math_floor (amount bet * multiplier game)) "win"
    (externalId room game) = (Rejected message, db') ->
  cash_out game db user room =
    (set_bets game
       (<[user := {| amount := amount bet; cashedOut := true;
                     winAmount := Math_floor (amount bet * multiplier game) |}]>
          (bets game)),
     db, []).
Proof.
  intros Hr Hb Hc Hm Hu. unfold cash_out. rewrite Hr, Hb, Hc, Hm, Hu. simpl.
  apply updateUserBalance_rejected in Hu as [-> _]. reflexivity.
Qed.

(** C1 (the code at the failing input).  User 7 holds a live bet of 100 in the
    running room, the multiplier is 1.38, and the ledger has lost the user's
    row: the credit is rejected, yet the room comes out with the bet marked
    cashed out at 138 and nothing is emitted.  With the ledger working the
    same command credits 138. *)
Theorem cash_out_failed_credit_marks_bet :
  bets (game ethrx_running) !! 7%Z
    = Some {| amount := 100; cashedOut := false; winAmount := 0 |} /\
  updateUserBalance db_no_user 7 138 "win" "room:ETHRX:nonce:2"
    = (Rejected "User not found", db_no_user) /\
  cash_out (game ethrx_running) db_no_user 7 "ETHRX"
    = (set_bets (game ethrx_running)
         {[ 7%Z := {| amount := 100; cashedOut := true; winAmount := 138 |} ]},
       db_no_user, []) /\
  emits (cash_out (game ethrx_running) (db ethrx_running) 7 "ETHRX")
    = [cash_out_success 1.38 138; balance_update 1038].
Proof. vm_compute. repeat split; reflexivity. Qed.

(** What [place_bet] does, case by case. *)
Lemma place_bet_cases (game : GameRoom) (db : Db) (user : Z) (room : string)
    (amount : float) :
  (exists newBalance db',
      (1.0 <? multiplier game) = false /\
      (amount <=? 0) = false /\
      updateUserBalance db user (- amount) "bet" (externalId room game)
        = (Resolved newBalance, db') /\
      place_bet game db user room amount =
        (set_bets game
           (<[user := {| amount := amount; cashedOut := false; winAmount := 0 |}]>
              (bets game)),
         db', [bet_success amount; balance_update newBalance]))
  \/ (exists reason,
      place_bet game db user room amount = (game, db, [bet_error reason]) /\
      ((1.0 <? multiplier game) = true /\ reason = "Game already started" \/
       (1.0 <? multiplier game) = false /\ (amount <=? 0) = true /\
         reason = "Invalid amount" \/
       (1.0 <? multiplier game) = false /\ (amount <=? 0) = false /\
         updateUserBalance db user (- amount) "bet" (externalId room game)
           = (Rejected reason, db) /\
         (reason = "User not found" \/ reason = "Insufficient funds" \/
          reason = amount_not_null))).
Proof.
  unfold place_bet.
  destruct (1.0 <? multiplier game) eqn:Hm; [right; eauto 10|].
  destruct (amount <=? 0) eqn:Ha; [right; eauto 10|].
  destruct (updateUserBalance db user (- amount) "bet" (externalId room game))
    as [[newBalance|message] db'] eqn:Hu.
  - left. exists newBalance, db'.
    destruct (updateUserBalance_resolved _ _ _ _ _ _ _ Hu) as (_ & _ & _ & _ & _ & _ & _ & ->).
    auto.
  - right. exists message.
    destruct (updateUserBalance_rejected _ _ _ _ _ _ _ Hu) as [-> Hmsg].
    split; [reflexivity|]. right; right. auto.
Qed.

(** C2, as amended.  A user who holds a bet and sends [place_bet] again in
    the same round is treated like any other (there is no test for a bet
    held).  The command is rejected when the multiplier is above 1.0; else
    when the amount is at most 0; else when the ledger rejects the debit (the
    user has no row, the funds do not suffice, or the amount is not a
    number); it is rejected for no other reason, and then the bet held, the
    other bets and the database stay as they were.  Otherwise it is accepted:
    the balance is debited by the amount once (one update of the balance, one
    transaction row), and the new bet takes the place of the one held. *)
Theorem place_bet_again_replaces_bet (game : GameRoom) (db : Db) (user : Z)
    (room : string) (amount : float) (held : Bet) :
  bets game !! user = Some held ->
  let debit := updateUserBalance db user (- amount) "bet" (externalId room game) in
  let answer := place_bet game db user room amount in
  ((1.0 <? multiplier game) = true ->
   answer = (game, db, [bet_error "Game already started"]))
  /\ ((1.0 <? multiplier game) = false -> (amount <=? 0) = true ->
      answer = (game, db, [bet_error "Invalid amount"]))
  /\ (forall message db',
        (1.0 <? multiplier game) = false -> (amount <=? 0) = false ->
        debit = (Rejected message, db') ->
        answer = (game, db, [bet_error message]) /\
        db' = db /\
        (message = "User not found" \/ message = "Insufficient funds" \/
         message = amount_not_null))
  /\ (forall newBalance db',
        (1.0 <? multiplier game) = false -> (amount <=? 0) = false ->
        debit = (Resolved newBalance, db') ->
        answer =
          (set_bets game
             (<[user := {| amount := amount; cashedOut := false; winAmount := 0 |}]>
                (bets game)),
           db', [bet_success amount; balance_update newBalance]) /\
        bets (room_after answer) !! user
          = Some {| amount := amount; cashedOut := false; winAmount := 0 |} /\
        (forall other, other <> user ->
           bets (room_after answer) !! other = bets game !! other) /\
        exists balance,
          users db !! user = Some balance /\
          newBalance = (if is_nan balance then 0 else balance) + - amount /\
          users db' = <[user := newBalance]> (users db) /\
          transactions db' =
            transactions db ++
            [{| user_id := user; type := "bet"; Ledger.amount := abs (- amount);
                external_id := externalId room game |}])
  /\ (forall reason,
        In (bet_error reason) (emits answer) ->
        answer = (game, db, [bet_error reason]) /\
        bets (room_after answer) !! user = Some held /\
        ((1.0 <? multiplier game) = true /\ reason = "Game already started" \/
         (1.0 <? multiplier game) = false /\ (amount <=? 0) = true /\
           reason = "Invalid amount" \/
         (1.0 <? multiplier game) = false /\ (amount <=? 0) = false /\
           debit = (Rejected reason, db))).
Proof.
  intros Hheld debit answer. subst debit answer.
  destruct (place_bet_cases game db user room amount)
    as [(newBalance & db1 & Hm & Ha & Hu & Hp)|(reason & Hp & Hr)]; rewrite Hp.
  - split; [congruence|]. split; [congruence|]. split; [congruence|]. split.
    + intros newBalance' db' _ _ Hu'. rewrite Hu in Hu'. injection Hu' as <- <-.
      split; [reflexivity|]. unfold room_after. simpl. rewrite lookup_insert_eq.
      split; [reflexivity|]. split.
      * intros other Hne. now rewrite lookup_insert_ne.
      * destruct (updateUserBalance_resolved _ _ _ _ _ _ _ Hu)
          as (balance & H1 & H2 & _ & _ & H3 & H4 & _).
        exists balance. auto.
    + unfold emits. simpl. intros reason [[=]|[[=]|[]]].
  - assert (Hin : forall reason',
              In (bet_error reason') (emits (game, db, [bet_error reason])) ->
              reason' = reason)
      by (unfold emits; simpl; intros reason' [[=]|[]]; auto).
    destruct Hr as [[Hm ->]|[(Hm & Ha & ->)|(Hm & Ha & Hu & Hmsg)]].
    + split; [reflexivity|]. split; [congruence|]. split; [congruence|].
      split; [congruence|].
      intros reason' ->%Hin. unfold room_after. simpl. auto.
    + split; [congruence|]. split; [reflexivity|]. split; [congruence|].
      split; [congruence|].
      intros reason' ->%Hin. unfold room_after. simpl. auto 10.
    + split; [congruence|]. split; [congruence|]. split; [|split].
      * intros message db' _ _ Hu'. rewrite Hu in Hu'. injection Hu' as <- <-. auto.
      * intros newBalance db' _ _ Hu'. rewrite Hu in Hu'. discriminate.
      * intros reason' ->%Hin. unfold room_after. simpl. auto 10.
Qed.

(** [place_bet] in a room whose multiplier is above 1.0. *)
Lemma place_bet_started (game : GameRoom) (db : Db) (user : Z) (room : string)
    (amount : float) :
  (1.0 <? multiplier game) = true ->
  place_bet game db user room amount = (game, db, [bet_error "Game already started"]).
Proof. intros Hm. unfold place_bet. rewrite Hm. reflexivity. Qed.

(** C5, as amended.  Bets are refused by the multiplier, not by the phase:
    every [place_bet] handled while the multiplier is above 1.0 is rejected
    with "Game already started", and neither the room nor the database
    changes (no debit); and a [place_bet] is answered "Game already started"
    only while the multiplier is above 1.0. *)
Theorem place_bet_closed_above_one (game : GameRoom) (db : Db) (user : Z)
    (room : string) (amount : float) :
  ((1.0 <? multiplier game) = true ->
   place_bet game db user room amount
     = (game, db, [bet_error "Game already started"]))
  /\ (In (bet_error "Game already started")
         (emits (place_bet game db user room amount)) ->
      (1.0 <? multiplier game) = true).
Proof.
  split; [apply place_bet_started|].
  destruct (place_bet_cases game db user room amount)
    as [(newBalance & db' & _ & _ & _ & ->)|(reason & -> & Hr)]; unfold emits; simpl.
  - intros [[=]|[[=]|[]]].
  - intros [[= ->]|[]]. unfold amount_not_null in Hr.
    destruct Hr as [[Hm _]|[(_ & _ & [=])|(_ & _ & _ & [[=]|[[=]|[=]]])]].
    exact Hm.
Qed.

(** What [cash_out] answers for a bet that is already cashed out. *)
Lemma cash_out_cashed (game : GameRoom) (db : Db) (user : Z) (room : string)
    (bet : Bet) :
  bets game !! user = Some bet ->
  cashedOut bet = true ->
  cash_out game db user room =
    (game, db,
     [error (if isRunning game then "Already cashed out" else "Game not running")]).
Proof.
  intros Hb Hc. unfold cash_out. destruct (isRunning game); simpl; [|reflexivity].
  rewrite Hb, Hc. reflexivity.
Qed.

(** A [cash_out] that reports success found a live bet, paid
    [floor(amount * multiplier)] at the multiplier of the room, and left the
    bet marked cashed out with that [winAmount]. *)
Lemma cash_out_success_inv (game : GameRoom) (db : Db) (user : Z) (room : string)
    (m w : float) :
  In (cash_out_success m w) (emits (cash_out game db user room)) ->
  exists bet,
    isRunning game = true /\
    bets game !! user = Some bet /\ cashedOut bet = false /\
    m = multiplier game /\ w = Math_floor (amount bet * multiplier game) /\
    bets (room_after (cash_out game db user room)) !! user
      = Some {| amount := amount bet; cashedOut := true; winAmount := w |}.
Proof.
  unfold cash_out, emits, room_after.
  destruct (isRunning game); simpl; [|intros [[=]|[]]].
  destruct (bets game !! user) as [bet|] eqn:Hb; simpl; [|intros [[=]|[]]].
  destruct (cashedOut bet) eqn:Hc; simpl; [intros [[=]|[]]|].
  destruct (crashPoint game <? multiplier game); simpl; [intros [[=]|[]]|].
  destruct (updateUserBalance _ _ _ _ _) as [[v|msg] db']; simpl; [|intros []].
  intros Hin. exists bet.
  assert (m = multiplier game /\ w = Math_floor (amount bet * multiplier game))
    as [-> ->].
  { destruct (findUserById db' user); simpl in Hin; intuition congruence. }
  repeat split; auto.
  destruct (findUserById db' user); simpl; now rewrite lookup_insert_eq.
Qed.

(** C6, as amended.  For a bet that is cashed out, every further [cash_out]
    fails, with "Already cashed out" while [isRunning] is set and with "Game
    not running" once the round has crashed; it credits nothing and changes
    neither the bet nor anything else.  A [cash_out] that succeeds pays
    [floor(amount * multiplier)] at the multiplier it reads, and marks the
    bet, so that it is the only one to succeed for this bet. *)
Theorem cash_out_at_most_once (game : GameRoom) (db : Db) (user : Z)
    (room : string) (bet : Bet) :
  bets game !! user = Some bet ->
  (cashedOut bet = true ->
   cash_out game db user room =
     (game, db,
      [error (if isRunning game then "Already cashed out" else "Game not running")]))
  /\ (forall m w,
        In (cash_out_success m w) (emits (cash_out game db user room)) ->
        cashedOut bet = false /\
        m = multiplier game /\
        w = Math_floor (amount bet * multiplier game) /\
        let game' := room_after (cash_out game db user room) in
        bets game' !! user
          = Some {| amount := amount bet; cashedOut := true; winAmount := w |} /\
        forall db' room',
          cash_out game' db' user room' =
            (game', db',
             [error (if isRunning game' then "Already cashed out"
                     else "Game not running")])).
Proof.
  intros Hb. split.
  - intros Hc. now apply cash_out_cashed with bet.
  - intros m w Hin.
    destruct (cash_out_success_inv _ _ _ _ _ _ Hin)
      as (bet' & _ & Hb' & Hc & -> & -> & Hafter).
    rewrite Hb in Hb'. injection Hb' as <-.
    repeat split; auto.
    intros db' room'. eapply cash_out_cashed; [exact Hafter|reflexivity].
Qed.

(** C10.  In [place_bet] the multiplier is tested before the amount: a
    command with [amount <= 0] that arrives while the multiplier is above 1.0
    is answered "Game already started"; and in a room whose multiplier is at
    least 1.00, as every value assigned to it is, "Invalid amount" is answered
    only when the multiplier is 1.0. *)
Theorem place_bet_tests_multiplier_first (game : GameRoom) (db : Db) (user : Z)
    (room : string) (amount : float) :
  (1.00 <=? multiplier game) = true ->
  ((amount <=? 0) = true -> (1.0 <? multiplier game) = true ->
   place_bet game db user room amount
     = (game, db, [bet_error "Game already started"]))
  /\ (In (bet_error "Invalid amount") (emits (place_bet game db user room amount)) ->
      multiplier game = 1.0 /\ (amount <=? 0) = true).
Proof.
  intros Hge. split.
  - intros _ Hm. now apply place_bet_started.
  - destruct (place_bet_cases game db user room amount)
      as [(newBalance & db' & _ & _ & _ & ->)|(reason & -> & Hr)]; unfold emits; simpl.
    + intros [[=]|[[=]|[]]].
    + intros [[= ->]|[]]. unfold amount_not_null in Hr.
      destruct Hr as [[_ [=]]|[(Hm & Ha & _)|(_ & _ & _ & [[=]|[[=]|[=]]])]].
      split; [|exact Ha]. now apply leb_one_not_ltb.
Qed.

(** ** Reading digests *)

Lemma parse_hex_seen (s : string) (acc : Z) : is_Some (parse_hex s acc true).
Proof.
  revert acc. induction s as [|c s IH]; intros acc; simpl; [eauto|].
  destruct (hex_digit c); [apply IH|eauto].
Qed.

(** [parseInt] of a non-empty prefix is NaN only when the first character is
    not a digit, whatever the length of the prefix. *)
Lemma parseInt16_prefix (n1 n2 : nat) (s : string) :
  parseInt16 (substring0 (S n1) s) = None ->
  parseInt16 (substring0 (S n2) s) = None.
Proof.
  unfold parseInt16, substring0. destruct s as [|c s]; simpl; [auto|].
  destruct (hex_digit c); [|auto].
  intros H. destruct (parse_hex_seen (String.substring 0 n1 s) (16 * 0 + z)) as [v Hv].
  congruence.
Qed.

(** ** The messages of a run *)

Section Auditing.

Variable P : Z -> string -> float -> string -> Prop.

Lemma last_start_app (current : option (Z * string)) (t1 t2 : list (Target * Message)) :
  last_start current (t1 ++ t2) = last_start (last_start current t1) t2.
Proof.
  revert current. induction t1 as [|[tg m] t1 IH]; intros current; simpl; [reflexivity|].
  destruct m; apply IH.
Qed.

Lemma audit_app (current : option (Z * string)) (t1 t2 : list (Target * Message)) :
  audit P current (t1 ++ t2) <-> audit P current t1 /\ audit P (last_start current t1) t2.
Proof.
  revert current. induction t1 as [|[tg m] t1 IH]; intros current; simpl; [tauto|].
  destruct m; rewrite ?IH; tauto.
Qed.

Lemma last_start_socket (current : option (Z * string)) (user : Z) (out : list Message) :
  Forall to_one_socket out ->
  last_start current (map (fun m => (to_socket user, m)) out) = current.
Proof.
  induction 1 as [|m out Hm _ IH]; simpl; [reflexivity|].
  destruct m; simpl in Hm; try contradiction; exact IH.
Qed.

Lemma audit_socket (current : option (Z * string)) (user : Z) (out : list Message) :
  Forall to_one_socket out ->
  audit P current (map (fun m => (to_socket user, m)) out).
Proof.
  induction 1 as [|m out Hm _ IH]; simpl; [exact I|].
  destruct m; simpl in Hm; try contradiction; exact IH.
Qed.

Lemma audit_weaken (Q : Z -> string -> float -> string -> Prop)
    (current : option (Z * string)) (tr : list (Target * Message)) :
  (forall n h m seed, P n h m seed -> Q n h m seed) ->
  audit P current tr -> audit Q current tr.
Proof.
  intros HPQ. revert current.
  induction tr as [|[tg m] tr IH]; intros current; simpl; [auto|].
  destruct m; auto. intros [H1 H2]. split; [|now apply IH].
  destruct current as [[n h]|]; auto.
Qed.

End Auditing.

(** The handlers change nothing of a room but its bets, and emit only
    messages of their own. *)
Lemma place_bet_frame (game : GameRoom) (db : Db) (user : Z) (room : string)
    (amount : float) :
  (exists b, room_after (place_bet game db user room amount) = set_bets game b) /\
  Forall to_one_socket (emits (place_bet game db user room amount)).
Proof.
  destruct (place_bet_cases game db user room amount)
    as [(newBalance & db' & _ & _ & _ & ->)|(reason & -> & _)];
    unfold emits, room_after; simpl.
  - split; [eauto|]. repeat constructor.
  - split; [|repeat constructor]. exists (bets game). now destruct game.
Qed.

Lemma cash_out_frame (game : GameRoom) (db : Db) (user : Z) (room : string) :
  (exists b, room_after (cash_out game db user room) = set_bets game b) /\
  Forall to_one_socket (emits (cash_out game db user room)).
Proof.
  assert (Hid : exists b, game = set_bets game b)
    by (exists (bets game); now destruct game).
  unfold cash_out, emits, room_after.
  destruct (isRunning game); simpl; [|split; [exact Hid|repeat constructor]].
  destruct (bets game !! user) as [bet|]; simpl;
    [|split; [exact Hid|repeat constructor]].
  destruct (cashedOut bet); simpl; [split; [exact Hid|repeat constructor]|].
  destruct (crashPoint game <? multiplier game); simpl;
    [split; [exact Hid|repeat constructor]|].
  destruct (updateUserBalance _ _ _ _ _) as [[v|msg] db']; simpl.
  - destruct (findUserById db' user); simpl; (split; [eauto|repeat constructor]).
  - split; [eauto|constructor].
Qed.

(** [cash_out] in a room whose flag is clear. *)
Lemma cash_out_not_running (game : GameRoom) (db : Db) (user : Z) (room : string) :
  isRunning game = false ->
  cash_out game db user room = (game, db, [error "Game not running"]).
Proof. intros H. unfold cash_out. rewrite H. reflexivity. Qed.

(** [cash_out] answers "Crashed!" only when it finds the flag set and the
    multiplier above the crash point. *)
Lemma cash_out_too_late (game : GameRoom) (db : Db) (user : Z) (room : string) :
  In (error "Crashed!") (emits (cash_out game db user room)) ->
  isRunning game = true /\ (crashPoint game <? multiplier game) = true.
Proof.
  unfold cash_out, emits.
  destruct (isRunning game); simpl; [|intros [[=]|[]]].
  destruct (bets game !! user) as [bet|]; simpl; [|intros [[=]|[]]].
  destruct (cashedOut bet); simpl; [intros [[=]|[]]|].
  destruct (crashPoint game <? multiplier game); simpl; [auto|].
  destruct (updateUserBalance _ _ _ _ _) as [[v|msg] db']; simpl; [|intros []].
  destruct (findUserById db' user); simpl; intuition discriminate.
Qed.

(** ** The rounds of a room *)

Section Rounds.

Context {host : Host}.

(** [getCrashPoint] computes the crash point the specification derives from
    the seed and the nonce of the room. *)
Lemma getCrashPoint_derived (this : GameRoom) :
  getCrashPoint this = derived_crash_point (serverSeed this) (nonce this).
Proof.
  unfold getCrashPoint, derived_crash_point.
  set (digest := HmacSHA256 _ _).
  destruct (parseInt16 (substring0 13 digest)) as [n|] eqn:H13;
    destruct (parseInt16 (substring0 8 digest)) as [h|] eqn:H8.
  - reflexivity.
  - apply (parseInt16_prefix 7 12) in H8. congruence.
  - apply (parseInt16_prefix 12 7) in H13. congruence.
  - reflexivity.
Qed.

(** A crash point is never below 1. *)
Lemma getCrashPoint_not_below_one (this : GameRoom) :
  (getCrashPoint this <? 1.00) = false.
Proof.
  unfold getCrashPoint.
  destruct (match parseInt16 _ with Some n => _ | None => false end); [reflexivity|].
  cbv zeta.
  destruct (Math_max_one
              (Math_floor
                 (100 * 0.99 /
                  (1 - match parseInt16 (substring0 8
                                 (HmacSHA256
                                    (serverSeed this ++ ":" ++ pretty (nonce this))%string
                                    (serverSeed this))) with
                       | Some n => of_Z n
                       | None => nan
                       end / 4294967296)) / 100)) as [->| [->|H]].
  - reflexivity.
  - reflexivity.
  - now apply ltb_asym.
Qed.

(** *** The flag [isRunning] follows the timers *)

Lemma startGame_in_phase (rnd : nat -> float) (now : Z) (s : System) :
  isRunning (game s) = false -> in_phase (startGame rnd now s).
Proof. intros H. unfold startGame, in_phase. rewrite H. simpl. auto. Qed.

Lemma handle_in_phase (user : Z) (r : GameRoom * Db * list Message) (s : System) :
  (exists b, room_after r = set_bets (game s) b) -> in_phase s ->
  in_phase (handle user r s).
Proof.
  destruct r as [[g d] out]. unfold room_after. simpl. intros [b ->].
  unfold in_phase. simpl. auto.
Qed.

Lemma step_in_phase (s : System) (i : Input) : in_phase s -> in_phase (step s i).
Proof.
  intros Hs. destruct i as [now rnd|now|user amount|user]; simpl.
  - unfold in_phase in Hs. destruct (timer s) eqn:Ht; try contradiction.
    + unfold in_phase. simpl. tauto.
    + unfold in_phase. now rewrite Ht.
    + apply startGame_in_phase. exact Hs.
  - destruct (timer s) eqn:Ht; try exact Hs.
    unfold in_phase in Hs. rewrite Ht in Hs.
    unfold tick_callback. simpl.
    destruct (crashPoint (game s) <=? _); unfold in_phase; simpl; [reflexivity|].
    now rewrite Ht.
  - apply handle_in_phase; [apply place_bet_frame|exact Hs].
  - apply handle_in_phase; [apply cash_out_frame|exact Hs].
Qed.

Lemma new_GameRoom_in_phase (ticker : string) (lambda : float) (roomName : string)
    (rnd0 rnd1 : nat -> float) (now : Z) (db : Db) :
  in_phase (new_GameRoom ticker lambda roomName rnd0 rnd1 now db).
Proof. unfold new_GameRoom. now apply startGame_in_phase. Qed.

(** In every state a room reaches, [isRunning] is set while the betting
    timeout or the interval is pending and clear while the timeout of
    [crashGame] is; one of the three is pending. *)
Lemma run_in_phase (s : System) (inputs : list Input) :
  in_phase s -> in_phase (run s inputs).
Proof.
  revert s. induction inputs as [|i inputs IH]; intros s Hs; [exact Hs|].
  simpl. apply IH, step_in_phase, Hs.
Qed.

Lemma in_phase_isRunning (s : System) :
  in_phase s ->
  isRunning (game s) = match phase s with Some CRASHED => false | _ => true end.
Proof. unfold in_phase, phase. destruct (timer s); intuition. Qed.

(** *** The multiplier stays in range *)

Lemma startGame_in_range (rnd : nat -> float) (now : Z) (s : System) :
  in_range s -> in_range (startGame rnd now s).
Proof.
  intros Hs. unfold startGame. destruct (isRunning (game s)); [exact Hs|].
  unfold in_range. simpl. split; [|right; reflexivity].
  intros _. apply getCrashPoint_not_below_one.
Qed.

Lemma handle_in_range (user : Z) (r : GameRoom * Db * list Message) (s : System) :
  (exists b, room_after r = set_bets (game s) b) -> in_range s ->
  in_range (handle user r s).
Proof.
  destruct r as [[g d] out]. unfold room_after. simpl. intros [b ->].
  unfold in_range. simpl. auto.
Qed.

Lemma step_in_range (s : System) (i : Input) : in_range s -> in_range (step s i).
Proof.
  intros Hs. destruct i as [now rnd|now|user amount|user]; simpl.
  - destruct (timer s); try exact Hs. now apply startGame_in_range.
  - destruct (timer s); try exact Hs.
    unfold tick_callback. simpl.
    assert (Hm : sample (lambda (game s)) (of_Z (now - loopStart) / 1000) = nan \/
                 (1.00 <=? sample (lambda (game s)) (of_Z (now - loopStart) / 1000)) = true).
    { unfold sample. cbv zeta.
      destruct (Math_max_one (toFixed2 (Math_pow Math_E
                  (0.065 * (2.0 / lambda (game s)) *
                   (of_Z (now - loopStart) / 1000) * 2.5)))) as [->|[->|H]];
        [now left|now right|right; now apply ltb_leb]. }
    destruct (crashPoint (game s) <=? _) eqn:Hc; unfold in_range; simpl.
    + split; [discriminate|exact Hm].
    + split; [|exact Hm]. intros _.
      destruct (crashPoint (game s) <? _) eqn:Hlt; [|reflexivity].
      apply ltb_leb in Hlt. congruence.
  - apply handle_in_range; [apply place_bet_frame|exact Hs].
  - apply handle_in_range; [apply cash_out_frame|exact Hs].
Qed.

Lemma new_GameRoom_in_range (ticker : string) (lambda : float) (roomName : string)
    (rnd0 rnd1 : nat -> float) (now : Z) (db : Db) :
  in_range (new_GameRoom ticker lambda roomName rnd0 rnd1 now db).
Proof.
  unfold new_GameRoom. apply startGame_in_range. unfold in_range. simpl.
  split; [discriminate|right; reflexivity].
Qed.

Lemma run_in_range (s : System) (inputs : list Input) :
  in_range s -> in_range (run s inputs).
Proof.
  revert s. induction inputs as [|i inputs IH]; intros s Hs; [exact Hs|].
  simpl. apply IH, step_in_range, Hs.
Qed.

(** In no state a room reaches does [cash_out] answer "Crashed!": the
    callback that samples a multiplier at or above the crash point clears
    [isRunning] before any command is handled. *)
Lemma too_late_is_never_answered (ticker : string) (lambda : float)
    (roomName : string) (rnd0 rnd1 : nat -> float) (now : Z) (db0 : Db)
    (inputs : list Input) (user : Z) (room : string) :
  let s := run (new_GameRoom ticker lambda roomName rnd0 rnd1 now db0) inputs in
  ~ In (error "Crashed!") (emits (cash_out (game s) (db s) user room)).
Proof.
  intros s Hin. apply cash_out_too_late in Hin as [Hr Hlt].
  destruct (run_in_range _ inputs
              (new_GameRoom_in_range ticker lambda roomName rnd0 rnd1 now db0))
    as [H _].
  fold s in H. rewrite (H Hr) in Hlt. discriminate.
Qed.

(** *** Seeds and crash points stay as published *)

Lemma startGame_fair (rnd : nat -> float) (now : Z) (s : System) :
  isRunning (game s) = false ->
  audit round_verifies None (emitted s) ->
  fair (startGame rnd now s).
Proof.
  intros Hr Ha. unfold startGame, fair. rewrite Hr. simpl.
  repeat split.
  - apply getCrashPoint_derived.
  - now rewrite last_start_app.
  - apply audit_app. simpl. auto.
Qed.

Lemma handle_fair (user : Z) (r : GameRoom * Db * list Message) (s : System) :
  (exists b, room_after r = set_bets (game s) b) /\ Forall to_one_socket (emits r) ->
  fair s -> fair (handle user r s).
Proof.
  destruct r as [[g d] out]. unfold emits, room_after. simpl. intros [[b ->] Hout].
  unfold fair. simpl. intros (Hh & Hc & Hl & Ha). repeat split; auto.
  - rewrite last_start_app, Hl. now apply last_start_socket.
  - apply audit_app. split; [exact Ha|]. now apply audit_socket.
Qed.

Lemma step_fair (s : System) (i : Input) : in_phase s -> fair s -> fair (step s i).
Proof.
  intros Hp Hf. destruct i as [now rnd|now|user amount|user]; simpl.
  - unfold in_phase in Hp. destruct (timer s) eqn:Ht; try exact Hf.
    apply startGame_fair; [exact Hp|apply Hf].
  - destruct (timer s) eqn:Ht; try exact Hf.
    destruct Hf as (Hh & Hc & Hl & Ha).
    unfold tick_callback. simpl.
    destruct (crashPoint (game s) <=? _); unfold fair; simpl.
    + repeat split; auto.
      * rewrite last_start_app, Hl. reflexivity.
      * apply audit_app. split; [exact Ha|]. rewrite Hl. simpl.
        unfold round_verifies. auto.
    + repeat split; auto.
      * rewrite last_start_app, Hl. reflexivity.
      * apply audit_app. split; [exact Ha|]. simpl. exact I.
  - apply handle_fair; [apply place_bet_frame|exact Hf].
  - apply handle_fair; [apply cash_out_frame|exact Hf].
Qed.

Lemma new_GameRoom_fair (ticker : string) (lambda : float) (roomName : string)
    (rnd0 rnd1 : nat -> float) (now : Z) (db : Db) :
  fair (new_GameRoom ticker lambda roomName rnd0 rnd1 now db).
Proof. unfold new_GameRoom. apply startGame_fair; simpl; auto. Qed.

Lemma run_fair (s : System) (inputs : list Input) :
  in_phase s -> fair s -> fair (run s inputs).
Proof.
  revert s. induction inputs as [|i inputs IH]; intros s Hp Hf; [exact Hf|].
  simpl. apply IH; [now apply step_in_phase|now apply step_fair].
Qed.

(** C4.  [getCrashPoint] is the derivation of the specification, a function
    of the seed and the nonce alone; and in every run of a room from its
    construction, each [crash] broadcast carries the crash point derived from
    the seed it discloses and the nonce published at the start of its round:
    recomputing the derivation reproduces the value broadcast. *)
Theorem crash_point_is_derived (ticker : string) (lambda : float)
    (roomName : string) (rnd0 rnd1 : nat -> float) (now : Z) (db : Db)
    (inputs : list Input) :
  let s := run (new_GameRoom ticker lambda roomName rnd0 rnd1 now db) inputs in
  getCrashPoint (game s) = derived_crash_point (serverSeed (game s)) (nonce (game s)) /\
  crashPoint (game s) = derived_crash_point (serverSeed (game s)) (nonce (game s)) /\
  audit (fun nonce _ multiplier serverSeed =>
           multiplier = derived_crash_point serverSeed nonce)
    None (emitted s).
Proof.
  intros s.
  destruct (run_fair _ inputs
              (new_GameRoom_in_phase ticker lambda roomName rnd0 rnd1 now db)
              (new_GameRoom_fair ticker lambda roomName rnd0 rnd1 now db))
    as (_ & Hc & _ & Ha).
  split; [apply getCrashPoint_derived|]. split; [exact Hc|].
  revert Ha. apply audit_weaken. intros n h m seed [_ H]. exact H.
Qed.

(** C8.  In every run of a room from its construction, the hash published
    by the [game_start] of a round is the SHA-256 digest of the seed that the
    [crash] of that round discloses; and at every moment the room holds the
    digest of its seed as its hash, the one its last [game_start] published. *)
Theorem commitment_is_hash_of_seed (ticker : string) (lambda : float)
    (roomName : string) (rnd0 rnd1 : nat -> float) (now : Z) (db : Db)
    (inputs : list Input) :
  let s := run (new_GameRoom ticker lambda roomName rnd0 rnd1 now db) inputs in
  audit (fun _ hash _ serverSeed => hash = SHA256 serverSeed) None (emitted s) /\
  serverSeedHash (game s) = SHA256 (serverSeed (game s)) /\
  last_start None (emitted s) = Some (nonce (game s), serverSeedHash (game s)).
Proof.
  intros s.
  destruct (run_fair _ inputs
              (new_GameRoom_in_phase ticker lambda roomName rnd0 rnd1 now db)
              (new_GameRoom_fair ticker lambda roomName rnd0 rnd1 now db))
    as (Hh & _ & Hl & Ha).
  split; [|split; [exact Hh|exact Hl]].
  revert Ha. apply audit_weaken. intros n h m seed [H _]. exact H.
Qed.

(** C3, as amended.  [cash_out] is gated by the flag [isRunning], which is
    set from the start of the betting phase until the crash: in every state a
    room reaches, a [cash_out] handled during the cooldown after a crash
    fails with "Game not running" and changes nothing, so that nothing is
    credited; a [cash_out] that succeeds is handled during the betting phase
    or the running phase; and in these two phases a [cash_out] for a live bet
    is not refused: the bet is marked cashed out with the win
    [floor(amount * multiplier)], the ledger is asked to credit it, and when
    the credit resolves the success is reported with the new balance.  In the
    betting phase the multiplier is 1.00, so that the win is
    [floor(amount * 1.00)]. *)
Theorem cash_out_gated_by_isRunning (ticker : string) (lambda : float)
    (roomName : string) (rnd0 rnd1 : nat -> float) (now : Z) (db0 : Db)
    (inputs : list Input) (user : Z) (room : string) :
  let s := run (new_GameRoom ticker lambda roomName rnd0 rnd1 now db0) inputs in
  (phase s = Some CRASHED ->
   cash_out (game s) (db s) user room = (game s, db s, [error "Game not running"]))
  /\ (forall m w,
        In (cash_out_success m w) (emits (cash_out (game s) (db s) user room)) ->
        isRunning (game s) = true /\
        (phase s = Some BETTING \/ phase s = Some RUNNING))
  /\ (forall bet,
        phase s = Some BETTING \/ phase s = Some RUNNING ->
        bets (game s) !! user = Some bet ->
        cashedOut bet = false ->
        let win := Math_floor (amount bet * multiplier (game s)) in
        let credit := updateUserBalance (db s) user win "win" (externalId room (game s)) in
        let game' :=
          set_bets (game s)
            (<[user := {| amount := amount bet; cashedOut := true; winAmount := win |}]>
               (bets (game s))) in
        (phase s = Some BETTING ->
         multiplier (game s) = 1.00 /\ win = Math_floor (amount bet * 1.00)) /\
        (forall newBalance db',
           credit = (Resolved newBalance, db') ->
           cash_out (game s) (db s) user room =
             (game', db',
              [cash_out_success (multiplier (game s)) win; balance_update newBalance]) /\
           exists balance,
             users (db s) !! user = Some balance /\
             newBalance = (if is_nan balance then 0 else balance) + win /\
             users db' = <[user := newBalance]> (users (db s))) /\
        (forall message db',
           credit = (Rejected message, db') ->
           cash_out (game s) (db s) user room = (game', db s, []))).
Proof.
  intros s.
  assert (Hp : in_phase s) by apply run_in_phase, new_GameRoom_in_phase.
  assert (Hg : in_range s) by apply run_in_range, new_GameRoom_in_range.
  pose proof (in_phase_isRunning s Hp) as Hr.
  split; [|split].
  - intros Hc. rewrite Hc in Hr. now apply cash_out_not_running.
  - intros m w Hin.
    destruct (cash_out_success_inv _ _ _ _ _ _ Hin) as (bet & Hrun & _).
    split; [exact Hrun|].
    unfold in_phase in Hp. unfold phase in *.
    destruct (timer s); auto; try congruence; contradiction.
  - intros bet Hph Hb Hc win credit game'.
    assert (Hrun : isRunning (game s) = true)
      by (destruct Hph as [H|H]; rewrite H in Hr; exact Hr).
    pose proof (proj1 Hg Hrun) as Hlt.
    split; [|split].
    + intros Hbet. unfold in_phase in Hp. unfold phase in Hbet.
      destruct (timer s); try discriminate.
      destruct Hp as [_ Hm]. subst win. rewrite Hm. auto.
    + intros newBalance db' Hu. subst credit.
      destruct (updateUserBalance_resolved _ _ _ _ _ _ _ Hu)
        as (balance & H1 & H2 & _ & _ & H3 & _ & H4).
      split; [|exists balance; auto].
      unfold cash_out. rewrite Hrun, Hb, Hc, Hlt. simpl. fold win.
      rewrite Hu, H4. reflexivity.
    + intros message db' Hu. subst credit.
      now apply cash_out_rejected_credit with message db'.
Qed.

(** The commands of users leave the flag and the timer as they are. *)
Lemma commands_keep_isRunning (s : System) (cmds : list Input) :
  Forall is_command cmds ->
  isRunning (game (run s cmds)) = isRunning (game s) /\
  timer (run s cmds) = timer s.
Proof.
  intros H. revert s. induction H as [|i cmds Hi _ IH]; intros s; [auto|].
  simpl. destruct (IH (step s i)) as [-> ->].
  destruct i as [now rnd|now|user amount|user]; simpl in Hi; try contradiction; simpl.
  - destruct (place_bet_frame (game s) (db s) user (roomName (game s)) amount)
      as [[b Hb] _].
    destruct (place_bet _ _ _ _ _) as [[g d] out]. unfold room_after in Hb.
    simpl in *. now subst.
  - destruct (cash_out_frame (game s) (db s) user (roomName (game s)))
      as [[b Hb] _].
    destruct (cash_out _ _ _ _) as [[g d] out]. unfold room_after in Hb.
    simpl in *. now subst.
Qed.

(** C9, as amended.  When the interval callback finds the multiplier at or
    above the crash point, it clears [isRunning] in the same step; every
    [cash_out] handled from then on, whatever commands came in between, fails
    with "Game not running" (not with "Crashed!"), and neither the room nor
    the database changes: nothing is credited. *)
Theorem cash_out_after_crash_detected (s : System) (loopStart now : Z)
    (cmds : list Input) (user : Z) (room : string) :
  timer s = TickInterval loopStart ->
  let s1 := step s (Interval_fires now) in
  (crashPoint (game s1) <=? multiplier (game s1)) = true ->
  Forall is_command cmds ->
  let s2 := run s1 cmds in
  isRunning (game s1) = false /\
  phase s2 = Some CRASHED /\
  cash_out (game s2) (db s2) user room = (game s2, db s2, [error "Game not running"]).
Proof.
  intros Ht s1 Hd Hcmds s2.
  assert (H1 : isRunning (game s1) = false /\ timer s1 = CrashTimeout).
  { subst s1. simpl in *. rewrite Ht in *. unfold tick_callback in *. simpl in *.
    destruct (crashPoint (game s) <=? _) eqn:Hc; simpl in *; [auto|congruence]. }
  destruct H1 as [Hr1 Ht1].
  destruct (commands_keep_isRunning s1 cmds Hcmds) as [Hr2 Ht2]. fold s2 in Hr2, Ht2.
  split; [exact Hr1|]. split.
  - unfold phase. now rewrite Ht2, Ht1.
  - apply cash_out_not_running. congruence.
Qed.

End Rounds.

(** ** The growth function in binary64 *)

(** The number of binary digits of a mantissa. *)
Lemma digits2_pos_bounds (m : positive) :
  (2 ^ (Zpos (digits2_pos m) - 1) <= Zpos m < 2 ^ Zpos (digits2_pos m))%Z.
Proof.
  induction m as [p IH|p IH|]; simpl digits2_pos.
  - rewrite Pos2Z.inj_succ.
    replace (Z.succ (Zpos (digits2_pos p)) - 1)%Z
      with (Z.succ (Zpos (digits2_pos p) - 1)) by lia.
    rewrite !Z.pow_succ_r by lia. lia.
  - rewrite Pos2Z.inj_succ.
    replace (Z.succ (Zpos (digits2_pos p)) - 1)%Z
      with (Z.succ (Zpos (digits2_pos p) - 1)) by lia.
    rewrite !Z.pow_succ_r by lia. lia.
  - simpl. lia.
Qed.

(** A finite number is [m * 2^e] with [m < 2^53] and [e >= -1074]; unless
    [e = -1074] (the subnormal numbers) its mantissa has 53 digits. *)
Lemma Prim2SF_finite (x : float) (s : bool) (m : positive) (e : Z) :
  Prim2SF x = S754_finite s m e ->
  (Zpos m < 2 ^ 53 /\ -1074 <= e /\ (-1074 < e -> 2 ^ 52 <= Zpos m))%Z.
Proof.
  intros Hx. pose proof (Prim2SF_valid x) as Hv. rewrite Hx in Hv.
  unfold SpecFloat.valid_binary, bounded, canonical_mantissa, fexp, SpecFloat.emin,
    prec, emax in Hv.
  apply andb_prop in Hv as [Hc _]. apply Z.eqb_eq in Hc.
  destruct (digits2_pos_bounds m) as [Hlo Hhi].
  set (d := Zpos (digits2_pos m)) in *.
  assert (Hd : (d <= 53)%Z) by lia.
  split; [|split; [lia|]].
  - apply Z.lt_le_trans with (1 := Hhi). apply Z.pow_le_mono_r; lia.
  - intros He. assert (d = 53%Z) by lia.
    replace 52%Z with (d - 1)%Z by lia. exact Hlo.
Qed.

Lemma compare_cont_Z (m m' : positive) :
  Pos.compare_cont Eq m m' = (Zpos m ?= Zpos m')%Z.
Proof. reflexivity. Qed.

(** A number from 0 up to, not including, 2^46 is a zero or [m * 2^e] with
    [e < -6]. *)
Lemma below_2p46 (x : float) :
  (0 <=? x) = true -> (x <? 0x1p46) = true ->
  (exists s, Prim2SF x = S754_zero s) \/
  (exists m e, Prim2SF x = S754_finite false m e /\ (e < -6)%Z).
Proof.
  rewrite leb_spec, ltb_spec. unfold SFleb, SFltb.
  change (Prim2SF 0) with (S754_zero false).
  change (Prim2SF 0x1p46) with (S754_finite false 4503599627370496 (-6)).
  destruct (Prim2SF x) as [s|s| |s m e] eqn:Hx; cbn [SFcompare].
  - eauto.
  - destruct s; discriminate.
  - discriminate.
  - destruct s; [discriminate|]. intros _ Hlt. right. exists m, e. split; [reflexivity|].
    destruct (Prim2SF_finite x false m e Hx) as (_ & _ & Hn).
    rewrite compare_cont_Z in Hlt.
    destruct (Z.compare_spec e (-6)) as [He|He|He]; [|exact He|discriminate].
    subst e. assert (Hm : (2 ^ 52 <= Zpos m)%Z) by (apply Hn; lia).
    change (2 ^ 52)%Z with 4503599627370496%Z in Hm.
    destruct (Z.compare_spec (Zpos m) 4503599627370496); try discriminate. lia.
Qed.

(** The quotient by [2 * p] of [200 * z + p] is the integer nearest to
    [100 * z / p], the larger of two. *)
Lemma nearest_Q (z n : Z) (p : positive) :
  (2 * Zpos p * n <= 200 * z + Zpos p < 2 * Zpos p * (n + 1))%Z ->
  (inject_Z n - (1 # 2) <= 100 * (z # p))%Q /\ (100 * (z # p) < inject_Z n + (1 # 2))%Q.
Proof.
  intros [H1 H2]. unfold Qle, Qlt, Qminus, Qplus, Qopp, Qmult, inject_Z. simpl.
  split; lia.
Qed.

(** Among the numbers from 0 up to 2^46, the order of the numbers is the
    order of the rationals they stand for. *)
Lemma leb_exact (x y : float) (vx vy : Q) :
  (0 <=? x) = true -> (x <? 0x1p46) = true ->
  (0 <=? y) = true -> (y <? 0x1p46) = true ->
  (x <=? y) = true ->
  exact x = Some vx -> exact y = Some vy -> (vx <= vy)%Q.
Proof.
  intros H0 Hx H0y Hy Hxy.
  destruct (below_2p46 x H0 Hx) as [[s Ex]|(m & e & Ex & He)];
    destruct (below_2p46 y H0y Hy) as [[s' Ey]|(m' & e' & Ey & He')];
    unfold exact; rewrite Ex, Ey.
  - intros [= <-] [= <-]. apply Qle_refl.
  - destruct (Z.leb_spec 0 e') as [?|_]; [lia|].
    intros [= <-] [= <-]. unfold Qle. simpl. lia.
  - revert Hxy. rewrite leb_spec, Ex, Ey. discriminate.
  - destruct (Z.leb_spec 0 e) as [?|_]; [lia|].
    destruct (Z.leb_spec 0 e') as [?|_]; [lia|].
    intros [= <-] [= <-].
    assert (Hp : (0 < 2 ^ (- e))%Z) by (apply Z.pow_pos_nonneg; lia).
    assert (Hp' : (0 < 2 ^ (- e'))%Z) by (apply Z.pow_pos_nonneg; lia).
    unfold Qle. cbn [Qnum Qden]. rewrite !Z2Pos.id by assumption.
    revert Hxy. rewrite leb_spec, Ex, Ey. unfold SFleb. cbn [SFcompare].
    rewrite compare_cont_Z.
    destruct (Prim2SF_finite x false m e Ex) as (Hm & Hemin & _).
    destruct (Prim2SF_finite y false m' e' Ey) as (_ & He'' & Hm').
    destruct (Z.compare_spec e e') as [Hee|Hee|Hee]; [| |discriminate].
    + subst e'.
      destruct (Z.compare_spec (Zpos m) (Zpos m')); try discriminate; intros _;
        apply Z.mul_le_mono_nonneg_r; lia.
    + intros _.
      assert (H52 : (2 ^ 52 <= Zpos m')%Z) by (apply Hm'; lia).
      replace (- e)%Z with ((- e') + (e' - e))%Z by lia.
      rewrite Z.pow_add_r by lia.
      assert (H2 : (2 ^ 1 <= 2 ^ (e' - e))%Z) by (apply Z.pow_le_mono_r; lia).
      change (2 ^ 1)%Z with 2%Z in H2.
      change (2 ^ 53)%Z with 9007199254740992%Z in Hm.
      change (2 ^ 52)%Z with 4503599627370496%Z in H52.
      set (A := (2 ^ (- e'))%Z) in *. set (B := (2 ^ (e' - e))%Z) in *.
      apply Z.le_trans with (9007199254740992 * A)%Z;
        [apply Z.mul_le_mono_nonneg_r; lia|].
      apply Z.le_trans with (4503599627370496 * (A * B))%Z;
        [|apply Z.mul_le_mono_nonneg_r; lia].
      assert (A * 2 <= A * B)%Z by (apply Z.mul_le_mono_nonneg_l; lia). lia.
Qed.

(** An order between two numbers up to 2^46 passes to the bounds. *)
Lemma leb_below_2p46 (x y : float) :
  (x <=? y) = true -> (y <? 0x1p46) = true -> (x <? 0x1p46) = true.
Proof.
  rewrite leb_spec, !ltb_spec. unfold SFleb, SFltb.
  change (Prim2SF 0x1p46) with (S754_finite false 4503599627370496 (-6)).
  destruct (Prim2SF x) as [s|s| |s m e], (Prim2SF y) as [s'|s'| |s' m' e'];
    cbn [SFcompare]; try destruct s; try destruct s'; try congruence.
  rewrite !compare_cont_Z.
  destruct (Z.compare_spec e e'); try discriminate;
    destruct (Z.compare_spec e' (-6)); try discriminate;
    destruct (Z.compare_spec e (-6)); try reflexivity; try lia;
    destruct (Z.compare_spec (Zpos m) (Zpos m')); try discriminate;
    destruct (Z.compare_spec (Zpos m') 4503599627370496); try discriminate;
    destruct (Z.compare_spec (Zpos m) 4503599627370496); try reflexivity; lia.
Qed.

(** From 2^46 on, and on the infinity, [toFixed(2)] read back gives the
    number itself. *)
Lemma toFixed2_large (x : float) : (0x1p46 <=? x) = true -> toFixed2 x = x.
Proof.
  rewrite leb_spec. unfold SFleb, toFixed2.
  change (Prim2SF 0x1p46) with (S754_finite false 4503599627370496 (-6)).
  destruct (Prim2SF x) as [s|s| |s m e]; cbn [SFcompare]; try discriminate;
    try reflexivity.
  destruct s; [discriminate|].
  destruct (Z.compare_spec (-6) e) as [He|He|He]; [| |discriminate]; intros _;
    (destruct (Z.leb_spec (-6) e) as [_|?]; [reflexivity|lia]).
Qed.

(** The nearest hundredths of two rationals are in the order of the
    rationals. *)
Lemma nearest_le (v v' : Q) (n n' : Z) :
  (inject_Z n' - (1 # 2) <= 100 * v')%Q ->
  (100 * v < inject_Z n + (1 # 2))%Q ->
  (v' <= v)%Q ->
  (n' <= n)%Z.
Proof.
  intros H1 H2 H3.
  assert (H : (inject_Z n' < inject_Z n + 1)%Q) by lra.
  unfold Qlt, Qplus, inject_Z in H. simpl in H. lia.
Qed.

(** ** Rounding keeps the order

    The product and the quotient of two numbers, and an integer read as a
    number, are roundings of the exact results. *)

Section Rounding.

Local Open Scope Z_scope.

(** *** Powers of two *)

(** Powers of two are positive, multiply, and follow their exponents. *)
Lemma pow2_pos (e : Z) : (0 < pow2 e)%Q.
Proof. apply Qpower_0_lt. reflexivity. Qed.

Lemma pow2_add (a b : Z) : (pow2 (a + b) == pow2 a * pow2 b)%Q.
Proof. apply Qpower_plus. discriminate. Qed.

Lemma pow2_Z (n : Z) : 0 <= n -> (pow2 n == inject_Z (2 ^ n))%Q.
Proof. intros H. unfold pow2. now rewrite Zpower_Qpower. Qed.

Lemma pow2_le (a b : Z) : a <= b -> (pow2 a <= pow2 b)%Q.
Proof. intros H. apply Qpower_le_compat_l; [exact H|discriminate]. Qed.

Lemma pow2_lt (a b : Z) : a < b -> (pow2 a < pow2 b)%Q.
Proof. intros H. apply Qpower_lt_compat_l; [exact H|reflexivity]. Qed.

Lemma pow2_lt_inv (a b : Z) : (pow2 a < pow2 b)%Q -> a < b.
Proof.
  intros H. destruct (Z.lt_ge_cases a b) as [|Hge]; [assumption|].
  apply pow2_le in Hge. lra.
Qed.

(** *** Where a number lies between two integers *)

(** A number located at [m] lies from [m] up to [m + 1]. *)
Lemma located_bounds (m : Z) (l : location) (q : Q) :
  located m l q -> (inject_Z m <= q /\ q < inject_Z m + 1)%Q.
Proof. destruct l as [|[]]; simpl; intros H; lra. Qed.

Lemma located_eq (m : Z) (l : location) (q q' : Q) :
  (q == q')%Q -> located m l q -> located m l q'.
Proof. destruct l as [|[]]; simpl; intros H1 H2; lra. Qed.

(** A location kept in a record of [shr] is read back as it is. *)
Lemma loc_of_shr_record_of_loc (m : Z) (l : location) :
  loc_of_shr_record (shr_record_of_loc m l) = l /\
  shr_m (shr_record_of_loc m l) = m.
Proof. destruct l as [|[]]; split; reflexivity. Qed.

(** One step of [shr]: the number is halved. *)
Lemma shr_1_located (r : shr_record) (q q' : Q) :
  0 <= shr_m r ->
  located (shr_m r) (loc_of_shr_record r) q ->
  (q' * 2 == q)%Q ->
  0 <= shr_m (shr_1 r) /\
  located (shr_m (shr_1 r)) (loc_of_shr_record (shr_1 r)) q'.
Proof.
  destruct r as [m b s]. cbv [shr_m]. intros Hm Hl Hq.
  destruct m as [|p|p]; [| |lia].
  - destruct b, s; cbv [located loc_of_shr_record shr_1 shr_m orb] in *;
        change (inject_Z 0) with 0%Q in *; change (inject_Z 1) with 1%Q in *;
        split; try lia; lra.
  - destruct p as [p|p|].
    + assert (H : (inject_Z (Z.pos p~1) == 2 * inject_Z (Z.pos p) + 1)%Q)
        by (rewrite Pos2Z.inj_xI, inject_Z_plus, inject_Z_mult; reflexivity).
      destruct b, s; cbv [located loc_of_shr_record shr_1 shr_m orb] in *;
        change (inject_Z 0) with 0%Q in *; change (inject_Z 1) with 1%Q in *;
        split; try lia; lra.
    + assert (H : (inject_Z (Z.pos p~0) == 2 * inject_Z (Z.pos p))%Q)
        by (rewrite Pos2Z.inj_xO, inject_Z_mult; reflexivity).
      destruct b, s; cbv [located loc_of_shr_record shr_1 shr_m orb] in *;
        change (inject_Z 0) with 0%Q in *; change (inject_Z 1) with 1%Q in *;
        split; try lia; lra.
    + destruct b, s; cbv [located loc_of_shr_record shr_1 shr_m orb] in *;
        change (inject_Z 0) with 0%Q in *; change (inject_Z 1) with 1%Q in *;
        split; try lia; lra.
Qed.

(** [n] steps: the number is divided by [2^n]. *)
Lemma iter_shr_located (n : positive) :
  forall (r : shr_record) (q q' : Q),
    0 <= shr_m r ->
    located (shr_m r) (loc_of_shr_record r) q ->
    (q' * inject_Z (2 ^ Zpos n) == q)%Q ->
    0 <= shr_m (SpecFloat.iter_pos shr_1 n r) /\
    located (shr_m (SpecFloat.iter_pos shr_1 n r)) (loc_of_shr_record (SpecFloat.iter_pos shr_1 n r)) q'.
Proof.
  induction n as [n IH|n IH|]; intros r q q' Hm Hl Hq; simpl SpecFloat.iter_pos.
  - assert (Hp : (inject_Z (2 ^ Z.pos n~1)
                  == 2 * (inject_Z (2 ^ Z.pos n) * inject_Z (2 ^ Z.pos n)))%Q).
    { rewrite <- !inject_Z_mult. change 2%Q with (inject_Z 2).
      rewrite <- inject_Z_mult. apply inject_Z_injective.
      replace (Z.pos n~1) with (Z.pos n + Z.pos n + 1) by lia.
      rewrite !Z.pow_add_r by lia. change (2 ^ 1) with 2. ring. }
    destruct (shr_1_located r q (q' * inject_Z (2 ^ Z.pos n) * inject_Z (2 ^ Z.pos n))%Q
                Hm Hl) as [H1 H2]; [rewrite Hp in Hq; lra|].
    destruct (IH _ _ (q' * inject_Z (2 ^ Z.pos n))%Q H1 H2) as [H3 H4]; [reflexivity|].
    exact (IH _ _ q' H3 H4 (Qeq_refl _)).
  - assert (Hp : (inject_Z (2 ^ Z.pos n~0)
                  == inject_Z (2 ^ Z.pos n) * inject_Z (2 ^ Z.pos n))%Q).
    { rewrite <- !inject_Z_mult. apply inject_Z_injective.
      replace (Z.pos n~0) with (Z.pos n + Z.pos n) by lia.
      now rewrite !Z.pow_add_r by lia. }
    destruct (IH r q (q' * inject_Z (2 ^ Z.pos n))%Q Hm Hl) as [H3 H4];
      [rewrite Hp in Hq; lra|].
    exact (IH _ _ q' H3 H4 (Qeq_refl _)).
  - apply (shr_1_located r q q' Hm Hl). exact Hq.
Qed.


(** *** The first shift of [binary_round_aux] *)

(** The exponent of the grid for numbers below [2^g]: 53 digits, from 2^-1074. *)
Lemma fexp_eq (g : Z) : fexp prec emax g = Z.max (g - 53) (-1074).
Proof. reflexivity. Qed.

(** A positive integer of [d] binary digits lies from [2^(d-1)] up to [2^d]. *)
Lemma Zdigits2_bounds (m : Z) :
  0 < m -> 2 ^ (Zdigits2 m - 1) <= m < 2 ^ Zdigits2 m /\ 0 < Zdigits2 m.
Proof.
  destruct m as [|p|p]; try lia. intros _. simpl Zdigits2.
  split; [apply digits2_pos_bounds|lia].
Qed.

Lemma pow2_cancel (a b : Q) (e : Z) : (a * pow2 e == b * pow2 e)%Q -> (a == b)%Q.
Proof.
  intros H. apply (Qmult_inj_r a b (pow2 e)); [|exact H].
  pose proof (pow2_pos e). lra.
Qed.

(** The first shift of [binary_round_aux] brings the mantissa to the grid of
    step [2^E] and keeps where the number lies. *)
Lemma first_shift (m e : Z) (l : location) (q : Q) :
  0 < m -> located m l q -> e <= fexp prec emax (Zdigits2 m + e) ->
  let E := fexp prec emax (Zdigits2 m + e) in
  let r := fst (shr_fexp prec emax m e l) in
  snd (shr_fexp prec emax m e l) = E /\ 0 <= shr_m r /\
  forall y : Q, (y * pow2 E == q * pow2 e)%Q -> located (shr_m r) (loc_of_shr_record r) y.
Proof.
  intros Hm Hl He E r. subst r. unfold shr_fexp, shr. fold E.
  destruct (loc_of_shr_record_of_loc m l) as [Hloc Hshr].
  destruct (E - e) as [|p|p] eqn:Hs; [| |lia]; cbn [fst snd].
  - assert (E = e) by lia. split; [lia|]. rewrite Hloc, Hshr. split; [lia|].
    intros y Hy. apply located_eq with q; [|exact Hl].
    replace E with e in Hy by lia. symmetry. now apply pow2_cancel with e.
  - split; [lia|].
    assert (H0 : 0 <= shr_m (shr_record_of_loc m l)) by (rewrite Hshr; lia).
    assert (H1 : located (shr_m (shr_record_of_loc m l))
                   (loc_of_shr_record (shr_record_of_loc m l)) q)
      by now rewrite Hloc, Hshr.
    split.
    + assert (Hp : (0 < inject_Z (2 ^ Z.pos p))%Q).
      { pose proof (pow2_Z (Z.pos p) ltac:(lia)) as Hz. rewrite <- Hz. apply pow2_pos. }
      destruct (iter_shr_located p _ q (q / inject_Z (2 ^ Z.pos p)) H0 H1) as [H _];
        [field; lra|exact H].
    + intros y Hy.
      apply (iter_shr_located p _ q y H0 H1).
      assert (HE : (pow2 E == pow2 e * inject_Z (2 ^ Z.pos p))%Q).
      { replace E with (e + Z.pos p) by lia.
        pose proof (pow2_Z (Z.pos p) ltac:(lia)) as Hz.
        rewrite pow2_add, Hz. reflexivity. }
      apply pow2_cancel with e. rewrite <- Hy, HE. ring.
Qed.

(** *** Rounding to nearest, ties to even *)

(** The mantissa nearest to a number located at [m] is [m] or [m + 1]. *)
Lemma rne_cases (m : Z) (l : location) :
  round_nearest_even m l = m \/ round_nearest_even m l = m + 1.
Proof. destruct l as [|[]]; simpl; auto. destruct (Z.even m); auto. Qed.

Lemma inject_Z_lt_succ (a b : Z) : (inject_Z a < inject_Z b + 1)%Q -> a <= b.
Proof.
  intros H. change 1%Q with (inject_Z 1) in H.
  rewrite <- inject_Z_plus, <- Zlt_Qlt in H. lia.
Qed.

(** The nearest mantissas of two numbers are in the order of the numbers. *)
Lemma rne_mono (m m' : Z) (l l' : location) (y y' : Q) :
  located m l y -> located m' l' y' -> (y <= y')%Q ->
  round_nearest_even m l <= round_nearest_even m' l'.
Proof.
  intros Hl Hl' Hy.
  pose proof (located_bounds _ _ _ Hl) as [H1 H2].
  pose proof (located_bounds _ _ _ Hl') as [H1' H2'].
  assert (Hm : m <= m') by (apply inject_Z_lt_succ; lra).
  destruct (Z.eq_dec m m') as [<-|Hne].
  - destruct l as [|[]], l' as [|[]]; simpl in *; try destruct (Z.even m); try lia; lra.
  - destruct (rne_cases m l) as [->| ->], (rne_cases m' l') as [->| ->]; lia.
Qed.

(** *** The last step of [binary_round_aux] *)

(** The second shift of [binary_round_aux] and its last test give [finish]. *)
Lemma finish_spec (M E : Z) :
  0 <= M <= 9007199254740992 -> -1074 <= E ->
  (let '(r, e2) := shr_fexp prec emax M E loc_Exact in
   match shr_m r with
   | Z0 => S754_zero false
   | Zpos m =>
       if e2 <=? emax - prec then S754_finite false m e2 else S754_infinity false
   | Zneg _ => S754_nan
   end) = finish M E.
Proof.
  intros HM HE. unfold shr_fexp, shr, finish. rewrite fexp_eq.
  change (emax - prec) with 971.
  destruct M as [|p|p]; [| |lia].
  - simpl Zdigits2.
    destruct (Z.max (0 + E - 53) (-1074) - E) as [|k|k] eqn:Hk; [reflexivity|lia|reflexivity].
  - destruct (Z.eqb_spec (Z.pos p) 9007199254740992) as [Hp|Hp].
    + injection Hp as ->. change (Zdigits2 9007199254740992) with 54.
      replace (Z.max (54 + E - 53) (-1074) - E) with 1 by lia.
      reflexivity.
    + cbn [Z.eqb]. simpl Zdigits2.
      destruct (digits2_pos_bounds p) as [Hlo _].
      assert (Hd : Z.pos (digits2_pos p) <= 53).
      { assert (H : 2 ^ (Z.pos (digits2_pos p) - 1) < 2 ^ 53)
          by (change (2 ^ 53) with 9007199254740992; lia).
        apply Z.pow_lt_mono_r_iff in H; lia. }
      destruct (Z.max (Z.pos (digits2_pos p) + E - 53) (-1074) - E) as [|k|k] eqn:Hk;
        [reflexivity|lia|reflexivity].
Qed.

(** *** What [binary_round_aux] returns *)

(** [binary_round_aux] of a positive mantissa with at least the digits of
    the format returns the rounding of the number it is given. *)
Lemma round_aux_spec (m e : Z) (l : location) (q : Q) :
  0 < m -> located m l q -> e <= fexp prec emax (Zdigits2 m + e) ->
  rounds_to (q * pow2 e) (binary_round_aux prec emax false m e l).
Proof.
  intros Hm Hl He.
  destruct (first_shift m e l q Hm Hl He) as (H1 & H2 & H3).
  destruct (Zdigits2_bounds m Hm) as [[Hlo Hhi] Hd].
  pose proof (located_bounds _ _ _ Hl) as [Hq1 Hq2].
  set (g := Zdigits2 m + e) in *. set (E := fexp prec emax g) in *.
  assert (HE : -1074 <= E /\ g - 53 <= E) by (subst E; rewrite fexp_eq; lia).
  assert (Hx1 : (pow2 (g - 1) <= q * pow2 e)%Q).
  { replace (g - 1) with ((Zdigits2 m - 1) + e) by (subst g; lia).
    rewrite pow2_add. apply Qmult_le_compat_r; [|apply Qlt_le_weak, pow2_pos].
    pose proof (pow2_Z (Zdigits2 m - 1) ltac:(lia)) as Hz. rewrite Hz.
    rewrite Zle_Qle in Hlo. lra. }
  assert (Hx2 : (q * pow2 e < pow2 g)%Q).
  { subst g. rewrite pow2_add. apply Qmult_lt_compat_r; [apply pow2_pos|].
    pose proof (pow2_Z (Zdigits2 m) ltac:(lia)) as Hz. rewrite Hz.
    assert (H : m + 1 <= 2 ^ Zdigits2 m) by lia.
    rewrite Zle_Qle, inject_Z_plus in H. change (inject_Z 1) with 1%Q in H. lra. }
  destruct (shr_fexp prec emax m e l) as [r e1] eqn:Hs. cbn [fst snd] in *. subst e1.
  exists g, (shr_m r), (loc_of_shr_record r).
  split; [exact Hx1|]. split; [exact Hx2|]. split; [exact H2|]. split; [exact H3|].
  unfold binary_round_aux. rewrite Hs. fold E.
  apply finish_spec; [|lia].
  assert (Hy : located (shr_m r) (loc_of_shr_record r) (q * pow2 e * pow2 (- E))).
  { apply H3. rewrite <- Qmult_assoc, <- pow2_add.
    replace (- E + E) with 0 by lia. change (pow2 0) with 1%Q. ring. }
  apply located_bounds in Hy as [Hy1 Hy2].
  assert (Hb : (q * pow2 e * pow2 (- E) < inject_Z 9007199254740992)%Q).
  { apply Qlt_le_trans with (pow2 g * pow2 (- E))%Q.
    - apply Qmult_lt_compat_r; [apply pow2_pos|exact Hx2].
    - rewrite <- pow2_add. change (inject_Z 9007199254740992) with (inject_Z (2 ^ 53)).
      pose proof (pow2_Z 53 ltac:(lia)) as Hz. rewrite <- Hz. apply pow2_le. lia. }
  assert (Hlt : shr_m r < 9007199254740992) by (rewrite Zlt_Qlt; lra).
  destruct (rne_cases (shr_m r) (loc_of_shr_record r)) as [-> | ->]; lia.
Qed.

(** *** Rounding keeps the order *)

(** Finished numbers are in the order of their exponents, then mantissas. *)
Lemma finish_le (M E M' E' : Z) :
  0 <= M <= 9007199254740992 -> 0 <= M' <= 9007199254740992 ->
  (E = E' /\ M <= M') \/ (E < E' /\ 4503599627370496 <= M') ->
  SFleb (finish M E) (finish M' E') = true.
Proof.
  intros HM HM' H. unfold finish.
  repeat match goal with
         | |- context [Z.eqb ?a ?b] => destruct (Z.eqb_spec a b)
         | |- context [Z.leb ?a ?b] => destruct (Z.leb_spec a b)
         end;
    unfold SFleb; cbn [SFcompare]; try reflexivity; try (exfalso; lia);
    rewrite ?compare_cont_Z, ?Z2Pos.id by lia;
    repeat match goal with
           | |- context [Z.compare ?a ?b] => destruct (Z.compare_spec a b)
           end;
    try reflexivity; exfalso; lia.
Qed.

(** The roundings of two numbers are in the order of the numbers. *)
Lemma rounds_to_mono (x x' : Q) (r r' : spec_float) :
  rounds_to x r -> rounds_to x' r' -> (x <= x')%Q -> SFleb r r' = true.
Proof.
  intros (g & m & l & Hlo & Hhi & Hm & Hloc & ->)
         (g' & m' & l' & Hlo' & Hhi' & Hm' & Hloc' & ->) Hx.
  assert (Hg : g <= g').
  { assert (H : g - 1 < g') by (apply pow2_lt_inv; lra). lia. }
  set (E := fexp prec emax g) in *. set (E' := fexp prec emax g') in *.
  assert (HE : -1074 <= E /\ g - 53 <= E /\ (-1074 < E -> E = g - 53))
    by (subst E; rewrite fexp_eq; lia).
  assert (HE' : -1074 <= E' /\ g' - 53 <= E' /\ (-1074 < E' -> E' = g' - 53))
    by (subst E'; rewrite fexp_eq; lia).
  assert (HEE : E <= E') by (subst E E'; rewrite !fexp_eq; lia).
  assert (Hy : located m l (x * pow2 (- E))).
  { apply Hloc. rewrite <- Qmult_assoc, <- pow2_add.
    replace (- E + E) with 0 by lia. change (pow2 0) with 1%Q. ring. }
  assert (Hy' : located m' l' (x' * pow2 (- E'))).
  { apply Hloc'. rewrite <- Qmult_assoc, <- pow2_add.
    replace (- E' + E') with 0 by lia. change (pow2 0) with 1%Q. ring. }
  pose proof (located_bounds _ _ _ Hy) as [Hy1 Hy2].
  pose proof (located_bounds _ _ _ Hy') as [Hy1' Hy2'].
  pose proof (pow2_Z 53 ltac:(lia)) as Hz53.
  change (2 ^ 53) with 9007199254740992 in Hz53.
  assert (Hb : m < 9007199254740992).
  { rewrite Zlt_Qlt.
    apply Qle_lt_trans with (1 := Hy1).
    apply Qlt_le_trans with (pow2 g * pow2 (- E))%Q.
    - apply Qmult_lt_compat_r; [apply pow2_pos|exact Hhi].
    - rewrite <- pow2_add, <- Hz53. apply pow2_le. lia. }
  assert (Hb' : m' < 9007199254740992).
  { rewrite Zlt_Qlt.
    apply Qle_lt_trans with (1 := Hy1').
    apply Qlt_le_trans with (pow2 g' * pow2 (- E'))%Q.
    - apply Qmult_lt_compat_r; [apply pow2_pos|exact Hhi'].
    - rewrite <- pow2_add, <- Hz53. apply pow2_le. lia. }
  apply finish_le.
  - destruct (rne_cases m l) as [-> | ->]; lia.
  - destruct (rne_cases m' l') as [-> | ->]; lia.
  - destruct (Z.eq_dec E E') as [Heq|Hne].
    + left. split; [exact Heq|].
      apply rne_mono with (x * pow2 (- E))%Q (x' * pow2 (- E'))%Q; try assumption.
      rewrite <- Heq. apply Qmult_le_compat_r; [exact Hx|apply Qlt_le_weak, pow2_pos].
    + right. split; [lia|].
      assert (HE'' : E' = g' - 53) by (apply HE'; lia).
      assert (H52 : (inject_Z 4503599627370496 <= x' * pow2 (- E'))%Q).
      { pose proof (pow2_Z 52 ltac:(lia)) as Hz.
        change (2 ^ 52) with 4503599627370496 in Hz. rewrite <- Hz.
        replace 52 with ((g' - 1) + - E') by lia. rewrite pow2_add.
        apply Qmult_le_compat_r; [exact Hlo'|apply Qlt_le_weak, pow2_pos]. }
      assert (H : 4503599627370496 <= m') by (apply inject_Z_lt_succ; lra).
      destruct (rne_cases m' l') as [-> | ->]; lia.
Qed.

(** *** The order of finite numbers *)

(** A valid mantissa and exponent: [m < 2^53], [e >= -1074], and [m >= 2^52]
    unless [e = -1074]. *)
Lemma bounded_spec (m : positive) (e : Z) :
  bounded prec emax m e = true ->
  Zdigits2 (Z.pos m) <= 53 /\ -1074 <= e <= 971 /\
  fexp prec emax (Zdigits2 (Z.pos m) + e) = e /\
  (-1074 < e -> Zdigits2 (Z.pos m) = 53).
Proof.
  unfold bounded, canonical_mantissa. simpl Zdigits2. rewrite !fexp_eq.
  change (emax - prec) with 971.
  intros [H1 H2]%andb_prop. apply Z.eqb_eq in H1. apply Z.leb_le in H2. lia.
Qed.

(** The value of a positive finite number is positive. *)
Lemma value_pos (m : positive) (e : Z) : (0 < value m e)%Q.
Proof.
  unfold value. apply Qmult_lt_0_compat; [|apply pow2_pos].
  change 0%Q with (inject_Z 0). rewrite <- Zlt_Qlt. lia.
Qed.

(** Between [2^(g-1)] and [2^g] for [g] the digits plus the exponent. *)
Lemma value_bounds (m : positive) (e : Z) :
  (pow2 (Zdigits2 (Z.pos m) + e - 1) <= value m e)%Q /\
  (value m e < pow2 (Zdigits2 (Z.pos m) + e))%Q.
Proof.
  destruct (Zdigits2_bounds (Z.pos m) ltac:(lia)) as [[Hlo Hhi] Hd]. unfold value.
  split.
  - replace (Zdigits2 (Z.pos m) + e - 1) with ((Zdigits2 (Z.pos m) - 1) + e) by lia.
    rewrite pow2_add. apply Qmult_le_compat_r; [|apply Qlt_le_weak, pow2_pos].
    pose proof (pow2_Z (Zdigits2 (Z.pos m) - 1) ltac:(lia)) as Hz. rewrite Hz.
    now rewrite <- Zle_Qle.
  - rewrite pow2_add. apply Qmult_lt_compat_r; [apply pow2_pos|].
    pose proof (pow2_Z (Zdigits2 (Z.pos m)) ltac:(lia)) as Hz. rewrite Hz.
    now rewrite <- Zlt_Qlt.
Qed.

(** The order of valid positive numbers is the order of their values. *)
Lemma SFleb_value (m : positive) (e : Z) (m' : positive) (e' : Z) :
  bounded prec emax m e = true -> bounded prec emax m' e' = true ->
  SFleb (S754_finite false m e) (S754_finite false m' e') = true ->
  (value m e <= value m' e')%Q.
Proof.
  intros Hv Hv'. unfold SFleb. cbn [SFcompare]. rewrite compare_cont_Z.
  apply bounded_spec in Hv as (Hd & He & _ & Hn).
  apply bounded_spec in Hv' as (Hd' & He' & _ & Hn').
  destruct (Z.compare_spec e e') as [Hee|Hee|Hee]; [| |discriminate].
  - subst e'. destruct (Z.compare_spec (Z.pos m) (Z.pos m')) as [H|H|H];
      try discriminate; intros _; unfold value;
      (apply Qmult_le_compat_r; [|apply Qlt_le_weak, pow2_pos]);
      rewrite <- Zle_Qle; lia.
  - intros _.
    destruct (value_bounds m e) as [_ Hhi]. destruct (value_bounds m' e') as [Hlo' _].
    rewrite (Hn' ltac:(lia)) in Hlo'.
    apply Qlt_le_weak. apply Qlt_le_trans with (1 := Hhi).
    apply Qle_trans with (2 := Hlo'). apply pow2_le. lia.
Qed.

(** *** Multiplication *)

(** A product has at least the digits of its factors, less one. *)
Lemma digits_mul (m m' : positive) :
  Zdigits2 (Z.pos m) + Zdigits2 (Z.pos m') - 1 <= Zdigits2 (Z.pos (m * m')).
Proof.
  destruct (Zdigits2_bounds (Z.pos m) ltac:(lia)) as [[Hlo _] Hd].
  destruct (Zdigits2_bounds (Z.pos m') ltac:(lia)) as [[Hlo' _] Hd'].
  destruct (Zdigits2_bounds (Z.pos (m * m')) ltac:(lia)) as [[_ Hhi''] Hd''].
  assert (H : 2 ^ (Zdigits2 (Z.pos m) - 1 + (Zdigits2 (Z.pos m') - 1))
              < 2 ^ Zdigits2 (Z.pos (m * m'))).
  { rewrite Z.pow_add_r by lia. rewrite Pos2Z.inj_mul in Hhi''.
    apply Z.le_lt_trans with (2 := Hhi'').
    apply Z.mul_le_mono_nonneg; try lia; apply Z.pow_nonneg; lia. }
  apply Z.pow_lt_mono_r_iff in H; lia.
Qed.

(** The product of two positive finite numbers is the rounding of the
    product of their values. *)
Lemma SFmul_rounds (m : positive) (e : Z) (m' : positive) (e' : Z) :
  bounded prec emax m e = true -> bounded prec emax m' e' = true ->
  rounds_to (value m e * value m' e')
    (SFmul prec emax (S754_finite false m e) (S754_finite false m' e')).
Proof.
  intros Hv Hv'. cbn [SFmul xorb].
  apply bounded_spec in Hv as (Hd & He & Hf & Hn).
  apply bounded_spec in Hv' as (Hd' & He' & Hf' & Hn').
  pose proof (digits_mul m m') as HD.
  assert (Hr : rounds_to (inject_Z (Z.pos (m * m')) * pow2 (e + e'))
                 (binary_round_aux prec emax false (Z.pos (m * m')) (e + e') loc_Exact)).
  { apply round_aux_spec; [lia|simpl; reflexivity|].
    destruct (Zdigits2_bounds (Z.pos m) ltac:(lia)) as [_ Hp].
    destruct (Zdigits2_bounds (Z.pos m') ltac:(lia)) as [_ Hp'].
    rewrite fexp_eq in *. lia. }
  destruct Hr as (g & m1 & l1 & H1 & H2 & H3 & H4 & H5).
  assert (Hx : (inject_Z (Z.pos (m * m')) * pow2 (e + e') == value m e * value m' e')%Q).
  { unfold value. rewrite Pos2Z.inj_mul, inject_Z_mult, pow2_add. ring. }
  exists g, m1, l1. repeat split; try assumption; try lra.
  intros y Hy. apply H4. lra.
Qed.

(** Rounding does not tell equal rationals apart. *)
Lemma rounds_to_eq (x x' : Q) (r : spec_float) :
  (x == x')%Q -> rounds_to x r -> rounds_to x' r.
Proof.
  intros Hx (g & m1 & l1 & H1 & H2 & H3 & H4 & H5).
  exists g, m1, l1. repeat split; try assumption; try lra.
  intros y Hy. apply H4. lra.
Qed.

(** A rounding is a number from 0 to the infinity. *)
Lemma rounds_to_range (x : Q) (r : spec_float) :
  rounds_to x r ->
  (forall s, SFleb (S754_zero s) r = true) /\
  SFleb r (S754_infinity false) = true.
Proof.
  intros (g & m1 & l1 & _ & _ & _ & _ & ->). unfold finish.
  repeat match goal with
         | |- context [Z.eqb ?a ?b] => destruct (Z.eqb_spec a b)
         | |- context [Z.leb ?a ?b] => destruct (Z.leb_spec a b)
         end; split; try intros s; reflexivity.
Qed.

(** Multiplication is commutative. *)
Lemma SFmul_comm (x y : spec_float) : SFmul prec emax x y = SFmul prec emax y x.
Proof.
  destruct x as [s|s| |s m e], y as [s'|s'| |s' m' e']; cbn [SFmul];
    rewrite ?(xorb_comm s s'), ?(Pos.mul_comm m m'), ?(Z.add_comm e e'); reflexivity.
Qed.

(** Multiplication by a positive finite number keeps the order of the
    numbers from 0 to the infinity. *)
Lemma SFmul_mono_r (A B C : spec_float) :
  SpecFloat.valid_binary prec emax A = true ->
  SpecFloat.valid_binary prec emax B = true ->
  SpecFloat.valid_binary prec emax C = true ->
  SFleb (S754_zero false) A = true ->
  SFleb A B = true ->
  SFltb (S754_zero false) C = true ->
  SFltb C (S754_infinity false) = true ->
  SFleb (SFmul prec emax A C) (SFmul prec emax B C) = true.
Proof.
  intros HA HB HC H0 HAB HC0 HCi.
  destruct C as [sc|sc| |sc mc ec]; try discriminate;
    try (destruct sc; discriminate).
  destruct sc; [discriminate|]. clear HC0 HCi.
  destruct A as [sa|sa| |sa ma ea]; try discriminate;
    destruct B as [sb|sb| |sb mb eb]; try discriminate;
    try (destruct sa; try discriminate); try (destruct sb; try discriminate);
    lazymatch goal with
    | |- SFleb (SFmul _ _ (S754_finite _ ?ma ?ea) _)
               (SFmul _ _ (S754_finite _ ?mb ?eb) _) = true =>
        apply rounds_to_mono
          with (value ma ea * value mc ec)%Q (value mb eb * value mc ec)%Q;
        [now apply SFmul_rounds|now apply SFmul_rounds|
         apply Qmult_le_compat_r; [now apply SFleb_value|apply Qlt_le_weak, value_pos]]
    | |- SFleb (SFmul _ _ (S754_finite _ ?ma ?ea) _) _ = true =>
        exact (proj2 (rounds_to_range _ _ (SFmul_rounds ma ea mc ec HA HC)))
    | |- SFleb _ (SFmul _ _ (S754_finite _ ?mb ?eb) _) = true =>
        apply (proj1 (rounds_to_range _ _ (SFmul_rounds mb eb mc ec HB HC)))
    | |- _ => reflexivity
    end.
Qed.

(** Multiplication by a positive finite number keeps the order, on the
    right and on the left. *)
Lemma mul_mono_r (a b c : float) :
  (0 <=? a)%float = true -> (a <=? b)%float = true ->
  (0 <? c)%float = true -> (c <? infinity)%float = true ->
  (a * c <=? b * c)%float = true.
Proof.
  rewrite !leb_spec, !ltb_spec, !mul_spec.
  apply SFmul_mono_r; apply Prim2SF_valid.
Qed.

Lemma mul_mono_l (a b c : float) :
  (0 <=? a)%float = true -> (a <=? b)%float = true ->
  (0 <? c)%float = true -> (c <? infinity)%float = true ->
  (c * a <=? c * b)%float = true.
Proof.
  rewrite !leb_spec, !ltb_spec, !mul_spec. unfold SF64mul.
  rewrite (SFmul_comm (Prim2SF c) (Prim2SF a)), (SFmul_comm (Prim2SF c) (Prim2SF b)).
  apply SFmul_mono_r; apply Prim2SF_valid.
Qed.

(** *** Division *)

(** Where the quotient lies, as [new_location] tells from the remainder. *)
Lemma new_location_located (d r q : Z) (p : positive) :
  d = Z.pos p -> 0 <= r < d ->
  located q (new_location d r) ((q * d + r) # p).
Proof.
  intros -> Hr. unfold new_location, new_location_even, new_location_odd.
  destruct (Z.even (Z.pos p)) eqn:Hev.
  - destruct (Z.eqb_spec r 0) as [->|Hr0];
      [|destruct (Z.compare_spec (2 * r) (Z.pos p))];
      unfold located, Qlt, Qeq, Qplus, inject_Z; cbn [Qnum Qden]; lia.
  - assert (Hodd : Z.odd (Z.pos p) = true) by (rewrite <- Z.negb_even, Hev; reflexivity).
    apply Z.odd_spec in Hodd as [k Hk].
    destruct (Z.eqb_spec r 0) as [->|Hr0];
      [|destruct (Z.compare_spec (2 * r + 1) (Z.pos p))];
      unfold located, Qlt, Qeq, Qplus, inject_Z; cbn [Qnum Qden]; lia.
Qed.

(** The quotient of two positive finite numbers is the rounding of the
    quotient of their values, when this is at least 2^-1074. *)
Lemma SFdiv_rounds (m1 : positive) (e1 : Z) (m2 : positive) (e2 : Z) :
  -1073 <= (Zdigits2 (Z.pos m1) + e1) - (Zdigits2 (Z.pos m2) + e2) ->
  rounds_to (value m1 e1 / value m2 e2)
    (SFdiv prec emax (S754_finite false m1 e1) (S754_finite false m2 e2)).
Proof.
  intros Hg. cbn [SFdiv xorb]. unfold SFdiv_core_binary.
  destruct (Zdigits2_bounds (Z.pos m1) ltac:(lia)) as [[Hlo1 Hhi1] Hd1].
  destruct (Zdigits2_bounds (Z.pos m2) ltac:(lia)) as [[Hlo2 Hhi2] Hd2].
  set (d1 := Zdigits2 (Z.pos m1)) in *. set (d2 := Zdigits2 (Z.pos m2)) in *.
  rewrite fexp_eq.
  set (e' := Z.min (Z.max (d1 + e1 - (d2 + e2) - 53) (-1074)) (e1 - e2)).
  set (s := e1 - e2 - e').
  assert (Hs : d2 - d1 + 1 <= s /\ 0 <= s) by (subst s e'; lia).
  set (m' := match s with Z0 => Z.pos m1 | Z.pos _ => Z.shiftl (Z.pos m1) s | Z.neg _ => 0 end).
  assert (Hm' : m' = Z.pos m1 * 2 ^ s).
  { subst m'. destruct s as [|k|k] eqn:Hk; [lia| |lia].
    apply Z.shiftl_mul_pow2. lia. }
  clearbody m'.
  pose proof (Z_div_mod m' (Z.pos m2) ltac:(lia)) as Hdm.
  destruct (Z.div_eucl m' (Z.pos m2)) as [q r]. destruct Hdm as [Hdm Hr].
  set (k := d1 - 1 + s - d2).
  assert (Hk : 2 ^ k <= q).
  { assert (H1 : 2 ^ k * 2 ^ d2 <= m').
    { rewrite <- Z.pow_add_r by lia. replace (k + d2) with ((d1 - 1) + s) by lia.
      rewrite Z.pow_add_r, Hm' by lia.
      apply Z.mul_le_mono_nonneg_r; [apply Z.pow_nonneg; lia|lia]. }
    assert (H2 : 2 ^ k * Z.pos m2 <= 2 ^ k * 2 ^ d2)
      by (apply Z.mul_le_mono_nonneg_l; [apply Z.pow_nonneg; lia|lia]).
    assert (H3 : Z.pos m2 * 2 ^ k < Z.pos m2 * (q + 1)) by lia.
    apply Z.mul_lt_mono_pos_l in H3; lia. }
  assert (Hq : 0 < q).
  { assert (0 < 2 ^ k) by (apply Z.pow_pos_nonneg; lia). lia. }
  destruct (Zdigits2_bounds q Hq) as [[_ Hhiq] Hdq].
  assert (Hdig : d1 + s - d2 <= Zdigits2 q).
  { assert (H : 2 ^ k < 2 ^ Zdigits2 q) by lia.
    apply Z.pow_lt_mono_r_iff in H; lia. }
  apply rounds_to_eq with (((q * Z.pos m2 + r) # m2) * pow2 e')%Q.
  - rewrite Qmake_Qdiv. unfold value.
    replace (q * Z.pos m2 + r) with (Z.pos m1 * 2 ^ s) by lia.
    rewrite inject_Z_mult.
    pose proof (pow2_Z s ltac:(lia)) as Hz. rewrite <- Hz.
    assert (He : (pow2 e1 == pow2 s * pow2 e' * pow2 e2)%Q).
    { rewrite <- !pow2_add. replace (s + e' + e2) with e1 by lia. reflexivity. }
    rewrite He.
    pose proof (pow2_pos e2) as Hp2.
    assert (Hm2 : (0 < inject_Z (Z.pos m2))%Q)
      by (change 0%Q with (inject_Z 0); rewrite <- Zlt_Qlt; lia).
    field. split; lra.
  - apply round_aux_spec; [exact Hq| |].
    + apply new_location_located; [reflexivity|lia].
    + rewrite fexp_eq. subst e'. lia.
Qed.

(** The digits plus the exponent follow the value. *)
Lemma magnitude_le (m : positive) (e : Z) (m' : positive) (e' : Z) :
  (value m e <= value m' e')%Q ->
  Zdigits2 (Z.pos m) + e <= Zdigits2 (Z.pos m') + e'.
Proof.
  intros H. destruct (value_bounds m e) as [Hlo _].
  destruct (value_bounds m' e') as [_ Hhi'].
  assert (Hlt : Zdigits2 (Z.pos m) + e - 1 < Zdigits2 (Z.pos m') + e')
    by (apply pow2_lt_inv; lra).
  lia.
Qed.

(** Division by a positive finite number keeps the order. *)
Lemma SFdiv_mono_num (A B : spec_float) (ma : positive) (ea : Z)
    (mc : positive) (ec : Z) :
  A = S754_finite false ma ea ->
  SpecFloat.valid_binary prec emax A = true ->
  SpecFloat.valid_binary prec emax B = true ->
  -1073 <= (Zdigits2 (Z.pos ma) + ea) - (Zdigits2 (Z.pos mc) + ec) ->
  SFleb A B = true ->
  SFleb (SFdiv prec emax A (S754_finite false mc ec))
        (SFdiv prec emax B (S754_finite false mc ec)) = true.
Proof.
  intros -> HA HB Hg HAB.
  destruct B as [sb|sb| |sb mb eb]; try discriminate;
    destruct sb; try discriminate.
  - exact (proj2 (rounds_to_range _ _ (SFdiv_rounds ma ea mc ec Hg))).
  - pose proof (SFleb_value ma ea mb eb HA HB HAB) as Hv.
    pose proof (magnitude_le _ _ _ _ Hv) as Hm.
    apply rounds_to_mono with (value ma ea / value mc ec)%Q (value mb eb / value mc ec)%Q.
    + now apply SFdiv_rounds.
    + apply SFdiv_rounds. lia.
    + unfold Qdiv. apply Qmult_le_compat_r; [exact Hv|].
      apply Qlt_le_weak, Qinv_lt_0_compat, value_pos.
Qed.

(** Division of a positive finite number reverses the order of the
    divisors. *)
Lemma SFdiv_mono_den (C C' : spec_float) (mn : positive) (en : Z)
    (mc : positive) (ec : Z) :
  C = S754_finite false mc ec ->
  SpecFloat.valid_binary prec emax C = true ->
  SpecFloat.valid_binary prec emax C' = true ->
  -1073 <= (Zdigits2 (Z.pos mn) + en) - 1024 ->
  SFleb C C' = true ->
  SFleb (SFdiv prec emax (S754_finite false mn en) C')
        (SFdiv prec emax (S754_finite false mn en) C) = true.
Proof.
  intros -> HC HC' Hg HCC.
  assert (Hgc : forall m e, bounded prec emax m e = true ->
                  -1073 <= Zdigits2 (Z.pos mn) + en - (Zdigits2 (Z.pos m) + e)).
  { intros m e (Hd & He & _)%bounded_spec. lia. }
  destruct C' as [sc|sc| |sc mc' ec']; try discriminate;
    destruct sc; try discriminate.
  - exact (proj1 (rounds_to_range _ _ (SFdiv_rounds mn en mc ec (Hgc mc ec HC))) _).
  - pose proof (SFleb_value mc ec mc' ec' HC HC' HCC) as Hv.
    apply rounds_to_mono with (value mn en / value mc' ec')%Q (value mn en / value mc ec)%Q.
    + apply SFdiv_rounds. now apply Hgc.
    + apply SFdiv_rounds. now apply Hgc.
    + pose proof (value_pos mn en). pose proof (value_pos mc ec).
      pose proof (value_pos mc' ec').
      apply Qle_shift_div_r; [assumption|].
      assert (He : (value mn en / value mc ec * value mc ec == value mn en)%Q)
        by (field; lra).
      rewrite <- He at 1.
      apply Qmult_le_l; [|exact Hv].
      apply Qlt_shift_div_l; [assumption|lra].
Qed.

(** *** The order of the numbers *)

(** A number is equal to itself unless it is NaN. *)
Lemma SFcompare_refl (A : spec_float) : A <> S754_nan -> SFcompare A A = Some Eq.
Proof.
  destruct A as [s|s| |s m e]; try congruence; intros _; cbn [SFcompare];
    try (destruct s; reflexivity).
  rewrite Z.compare_refl, compare_cont_Z, Z.compare_refl. now destruct s.
Qed.

(** The order of the numbers is transitive and total but for NaN. *)
Lemma SFleb_trans (A B C : spec_float) :
  SFleb A B = true -> SFleb B C = true -> SFleb A C = true.
Proof.
  unfold SFleb.
  destruct A as [sa|sa| |sa ma ea], B as [sb|sb| |sb mb eb], C as [sc|sc| |sc mc ec];
    cbn [SFcompare]; try discriminate;
    try destruct sa; try destruct sb; try destruct sc;
    try discriminate; try reflexivity;
    rewrite ?compare_cont_Z;
    repeat match goal with
           | |- context [Z.compare ?a ?b] => destruct (Z.compare_spec a b)
           end;
    cbn [CompOpp]; try discriminate; try reflexivity; intros _ _; exfalso; lia.
Qed.

Lemma SFltb_leb_trans (A B C : spec_float) :
  SFltb A B = true -> SFleb B C = true -> SFltb A C = true.
Proof.
  unfold SFleb, SFltb.
  destruct A as [sa|sa| |sa ma ea], B as [sb|sb| |sb mb eb], C as [sc|sc| |sc mc ec];
    cbn [SFcompare]; try discriminate;
    try destruct sa; try destruct sb; try destruct sc;
    try discriminate; try reflexivity;
    rewrite ?compare_cont_Z;
    repeat match goal with
           | |- context [Z.compare ?a ?b] => destruct (Z.compare_spec a b)
           end;
    cbn [CompOpp]; try discriminate; try reflexivity; intros _ _; exfalso; lia.
Qed.

Lemma SFleb_ltb_trans (A B C : spec_float) :
  SFleb A B = true -> SFltb B C = true -> SFltb A C = true.
Proof.
  unfold SFleb, SFltb.
  destruct A as [sa|sa| |sa ma ea], B as [sb|sb| |sb mb eb], C as [sc|sc| |sc mc ec];
    cbn [SFcompare]; try discriminate;
    try destruct sa; try destruct sb; try destruct sc;
    try discriminate; try reflexivity;
    rewrite ?compare_cont_Z;
    repeat match goal with
           | |- context [Z.compare ?a ?b] => destruct (Z.compare_spec a b)
           end;
    cbn [CompOpp]; try discriminate; try reflexivity; intros _ _; exfalso; lia.
Qed.

Lemma SFltb_or_leb (A B : spec_float) :
  A <> S754_nan -> B <> S754_nan -> SFltb A B = true \/ SFleb B A = true.
Proof.
  unfold SFleb, SFltb.
  destruct A as [sa|sa| |sa ma ea], B as [sb|sb| |sb mb eb]; try congruence;
    intros _ _; cbn [SFcompare];
    try destruct sa; try destruct sb; auto;
    rewrite ?compare_cont_Z;
    repeat match goal with
           | |- context [Z.compare ?a ?b] => destruct (Z.compare_spec a b)
           end;
    cbn [CompOpp]; auto; exfalso; lia.
Qed.

End Rounding.

(** *** Integers as numbers *)

(** Doubling a mantissa [k] times. *)
Lemma iter_xO (p k : positive) : Z.pos (Pos.iter xO p k) = (Z.pos p * 2 ^ Z.pos k)%Z.
Proof.
  induction k as [|k IH] using Pos.peano_ind.
  - simpl. lia.
  - rewrite Pos.iter_succ, Pos2Z.inj_xO, IH, Pos2Z.inj_succ, Z.pow_succ_r by lia. lia.
Qed.

(** A positive integer below 2^63 as a number: the rounding of the integer. *)
Lemma of_Z_rounds (n : Z) :
  (0 < n < 2 ^ 63)%Z -> rounds_to (inject_Z n) (Prim2SF (of_Z n)).
Proof.
  intros Hn. destruct n as [|p|p]; try lia. unfold of_Z.
  rewrite of_uint63_spec, Uint63.of_Z_spec.
  change Uint63Axioms.wB with (2 ^ 63)%Z. rewrite Z.mod_small by lia.
  unfold binary_normalize, binary_round, shl_align.
  destruct (Zdigits2_bounds (Z.pos p) ltac:(lia)) as [[Hlo Hhi] Hd].
  simpl Zdigits2 in *. rewrite fexp_eq.
  set (d := Z.pos (digits2_pos p)) in *.
  destruct (Z.max (d + 0 - 53) (-1074) - 0)%Z as [|k|k] eqn:Hk.
  - apply rounds_to_eq with (inject_Z (Z.pos p) * pow2 0)%Q;
      [change (pow2 0) with 1%Q; ring|].
    apply round_aux_spec; [lia|simpl; reflexivity|].
    rewrite fexp_eq. simpl Zdigits2. fold d. lia.
  - apply rounds_to_eq with (inject_Z (Z.pos p) * pow2 0)%Q;
      [change (pow2 0) with 1%Q; ring|].
    apply round_aux_spec; [lia|simpl; reflexivity|].
    rewrite fexp_eq. simpl Zdigits2. fold d. lia.
  - assert (Hkd : (Z.pos k = 53 - d)%Z) by lia.
    replace (Z.max (d + 0 - 53) (-1074)) with (- Z.pos k)%Z by lia.
    pose proof (iter_xO p k) as Hm.
    apply rounds_to_eq with (inject_Z (Z.pos (Pos.iter xO p k)) * pow2 (- Z.pos k))%Q.
    + rewrite Hm, inject_Z_mult.
      pose proof (pow2_Z (Z.pos k) ltac:(lia)) as Hz. rewrite <- Hz.
      rewrite <- Qmult_assoc, <- pow2_add.
      replace (Z.pos k + - Z.pos k)%Z with 0%Z by lia. change (pow2 0) with 1%Q. ring.
    + apply round_aux_spec; [lia|simpl; reflexivity|].
      destruct (Zdigits2_bounds (Z.pos (Pos.iter xO p k)) ltac:(lia)) as [[_ Hhi'] Hd'].
      assert (H52 : (2 ^ 52 <= Z.pos (Pos.iter xO p k))%Z).
      { rewrite Hm. replace 52%Z with ((d - 1) + Z.pos k)%Z by lia.
        rewrite Z.pow_add_r by lia.
        apply Z.mul_le_mono_nonneg_r; [apply Z.pow_nonneg; lia|exact Hlo]. }
      assert (H : (2 ^ 52 < 2 ^ Zdigits2 (Z.pos (Pos.iter xO p k)))%Z) by lia.
      apply Z.pow_lt_mono_r_iff in H; [|lia|lia].
      rewrite fexp_eq. lia.
Qed.

(** *** The order of numbers *)

(** The order of the numbers, stated of the primitive floats. *)
Lemma leb_trans (a b c : float) :
  (a <=? b) = true -> (b <=? c) = true -> (a <=? c) = true.
Proof. rewrite !leb_spec. apply SFleb_trans. Qed.

Lemma ltb_leb_trans (a b c : float) :
  (a <? b) = true -> (b <=? c) = true -> (a <? c) = true.
Proof. rewrite !leb_spec, !ltb_spec. apply SFltb_leb_trans. Qed.

Lemma leb_ltb_trans (a b c : float) :
  (a <=? b) = true -> (b <? c) = true -> (a <? c) = true.
Proof. rewrite !leb_spec, !ltb_spec. apply SFleb_ltb_trans. Qed.

Lemma leb_not_nan (a b : float) :
  (a <=? b) = true -> Prim2SF a <> S754_nan /\ Prim2SF b <> S754_nan.
Proof.
  rewrite leb_spec. unfold SFleb.
  destruct (Prim2SF a), (Prim2SF b); cbn [SFcompare]; try discriminate; split; discriminate.
Qed.

Lemma ltb_or_leb (a b : float) :
  Prim2SF a <> S754_nan -> Prim2SF b <> S754_nan ->
  (a <? b) = true \/ (b <=? a) = true.
Proof. rewrite leb_spec, ltb_spec. apply SFltb_or_leb. Qed.

Lemma is_nan_false (a : float) : Prim2SF a <> S754_nan -> is_nan a = false.
Proof.
  intros H. unfold is_nan. rewrite FloatAxioms.eqb_spec. unfold SFeqb.
  now rewrite SFcompare_refl.
Qed.

(** *** Multiplication and division of numbers *)

(** A product of numbers that are not negative is not negative. *)
Lemma mul_nonneg (a c : float) :
  (0 <=? a) = true -> (0 <? c) = true -> (c <? infinity) = true ->
  (0 <=? a * c) = true.
Proof.
  intros Ha Hc Hi.
  apply leb_trans with (0 * c); [|apply mul_mono_r; auto].
  revert Hc Hi. rewrite leb_spec, !ltb_spec, mul_spec.
  change (Prim2SF 0) with (S754_zero false).
  change (Prim2SF infinity) with (S754_infinity false).
  destruct (Prim2SF c) as [s|s| |s m e]; try discriminate; destruct s; try discriminate.
  reflexivity.
Qed.

(** [2.0 / lambda] does not grow with [lambda]. *)
Lemma div_two_antitone (l l' : float) :
  (0 <? l) = true -> (l <=? l') = true ->
  (2.0 / l' <=? 2.0 / l) = true /\ (0 <=? 2.0 / l') = true.
Proof.
  rewrite !leb_spec, ltb_spec, !div_spec. unfold SF64div.
  change (Prim2SF 2.0) with (S754_finite false 4503599627370496 (-51)).
  change (Prim2SF 0) with (S754_zero false).
  pose proof (Prim2SF_valid l) as Hv. pose proof (Prim2SF_valid l') as Hv'.
  assert (Hg : (-1073 <= Zdigits2 4503599627370496 + -51 - 1024)%Z)
    by (vm_compute; discriminate).
  destruct (Prim2SF l) as [s|s| |s m e] eqn:El; try discriminate;
    destruct s; try discriminate; intros _ Hle.
  - destruct (Prim2SF l') as [s'|s'| |s' m' e']; try discriminate;
      destruct s'; try discriminate. split; reflexivity.
  - split.
    + now apply SFdiv_mono_den with m e.
    + destruct (Prim2SF l') as [s'|s'| |s' m' e']; try discriminate;
        destruct s'; try discriminate; [reflexivity|].
      apply (proj1 (rounds_to_range _ _
               (SFdiv_rounds 4503599627370496 (-51) m' e' ltac:(
                  apply bounded_spec in Hv' as (? & ? & _); vm_compute Zdigits2 at 1; lia)))).
Qed.

(** Division by 100 keeps the order of the numbers from 1 on. *)
Lemma div_hundred_mono (a b : float) :
  (1 <=? a) = true -> (a <=? b) = true -> (a / 100 <=? b / 100) = true.
Proof.
  rewrite !leb_spec, !div_spec. unfold SF64div.
  change (Prim2SF 100) with (S754_finite false 7036874417766400 (-46)).
  change (Prim2SF 1) with (S754_finite false 4503599627370496 (-52)).
  pose proof (Prim2SF_valid a) as Hv. pose proof (Prim2SF_valid b) as Hv'.
  destruct (Prim2SF a) as [s|s| |s m e] eqn:Ea; try discriminate;
    destruct s; try discriminate; intros H1 Hle.
  - destruct (Prim2SF b) as [s'|s'| |s' m' e']; try discriminate;
      destruct s'; try discriminate. reflexivity.
  - apply SFdiv_mono_num with m e; auto.
    assert (Hm : (Zdigits2 4503599627370496 + -52 <= Zdigits2 (Z.pos m) + e)%Z).
    { apply magnitude_le. apply SFleb_value; auto. }
    change (Zdigits2 4503599627370496) with 53%Z in Hm.
    change (Zdigits2 7036874417766400) with 53%Z. lia.
Qed.

(** The hundredths [n / 100] follow the integers [n]. *)
Lemma hundredths_mono (n n' : Z) :
  (0 <= n <= n')%Z -> (n' < 2 ^ 63)%Z ->
  (of_Z n / 100 <=? of_Z n' / 100) = true.
Proof.
  intros Hn Hn'.
  assert (Hof : forall k k', (0 < k <= k')%Z -> (k' < 2 ^ 63)%Z ->
                  (of_Z k <=? of_Z k') = true).
  { intros k k' Hk Hk'. rewrite leb_spec.
    apply rounds_to_mono with (inject_Z k) (inject_Z k');
      [apply of_Z_rounds; lia|apply of_Z_rounds; lia|].
    rewrite <- Zle_Qle. lia. }
  destruct (Z.eq_dec n 0%Z) as [->|Hn0].
  - destruct (Z.eq_dec n' 0%Z) as [->|Hn0']; [reflexivity|].
    apply leb_trans with (of_Z 1 / 100); [reflexivity|].
    apply div_hundred_mono; [reflexivity|]. apply Hof; lia.
  - apply div_hundred_mono; [|apply Hof; lia].
    change 1 with (of_Z 1). apply Hof; lia.
Qed.

(** On a number from 0 up to 2^46, the hundredths are at most 100 * 2^46. *)
Lemma toFixed2_hundredths (x : float) :
  (0 <=? x) = true -> (x <? 0x1p46) = true ->
  exists (v : Q) (n : Z),
    exact x = Some v /\ toFixed2 x = of_Z n / 100 /\
    (0 <= n <= 7036874417766400)%Z /\
    (inject_Z n - (1 # 2) <= 100 * v)%Q /\ (100 * v < inject_Z n + (1 # 2))%Q.
Proof.
  intros H0 H1.
  destruct (below_2p46 x H0 H1) as [[s Hx]|(m & e & Hx & He)];
    unfold exact, toFixed2; rewrite Hx.
  - exists 0%Q, 0%Z. repeat split; try reflexivity; try lia; discriminate.
  - destruct (Z.leb_spec (-6) e) as [?|_]; [lia|].
    destruct (Z.leb_spec 0 e) as [?|_]; [lia|].
    destruct (Prim2SF_finite x false m e Hx) as (Hm & _ & _).
    assert (Hp : (2 ^ 7 <= 2 ^ (- e))%Z) by (apply Z.pow_le_mono_r; lia).
    rewrite Z.shiftl_1_l, Z.shiftr_div_pow2 by lia.
    replace (- e + 1)%Z with (Z.succ (- e)) by lia. rewrite Z.pow_succ_r by lia.
    change (2 ^ 7)%Z with 128%Z in Hp. change (2 ^ 53)%Z with 9007199254740992%Z in Hm.
    set (P := (2 ^ (- e))%Z) in *.
    set (n := ((200 * Zpos m + P) / (2 * P))%Z).
    pose proof (Z.mul_div_le (200 * Zpos m + P) (2 * P)) as Hlo.
    pose proof (Z.mul_succ_div_gt (200 * Zpos m + P) (2 * P)) as Hhi.
    fold n in Hlo, Hhi.
    exists (Zpos m # Z.to_pos P), n.
    split; [reflexivity|]. split; [reflexivity|]. split.
    + split; [apply Z.div_pos; lia|].
      assert (H : (2 * P * n < 2 * P * 7036874417766401)%Z) by lia.
      apply Z.mul_lt_mono_pos_l in H; lia.
    + apply nearest_Q. rewrite Z2Pos.id by lia. lia.
Qed.

(** [toFixed(2)] read back keeps the order of the numbers from 0 on. *)
Lemma toFixed2_mono (a b : float) :
  (0 <=? a) = true -> (a <=? b) = true -> (toFixed2 a <=? toFixed2 b) = true.
Proof.
  intros H0 Hab.
  pose proof (leb_trans _ _ _ H0 Hab) as H0b.
  destruct (leb_not_nan _ _ Hab) as [Ha Hb].
  assert (Hc : Prim2SF 0x1p46 <> S754_nan) by discriminate.
  destruct (ltb_or_leb b 0x1p46 Hb Hc) as [Hb1|Hb1].
  - pose proof (leb_below_2p46 a b Hab Hb1) as Ha1.
    destruct (toFixed2_hundredths a H0 Ha1) as (v & n & Hv & -> & Hn & Hlo & Hhi).
    destruct (toFixed2_hundredths b H0b Hb1) as (v' & n' & Hv' & -> & Hn' & Hlo' & Hhi').
    apply hundredths_mono; [|lia]. split; [lia|].
    apply (nearest_le v' v n' n Hlo Hhi').
    exact (leb_exact a b v v' H0 Ha1 H0b Hb1 Hab Hv Hv').
  - rewrite (toFixed2_large b Hb1).
    destruct (ltb_or_leb a 0x1p46 Ha Hc) as [Ha1|Ha1].
    + destruct (toFixed2_hundredths a H0 Ha1) as (v & n & Hv & -> & Hn & Hlo & Hhi).
      apply leb_trans with (2 := Hb1).
      apply leb_trans with (of_Z 7036874417766400 / 100); [|reflexivity].
      apply hundredths_mono; lia.
    + now rewrite (toFixed2_large a Ha1).
Qed.

(** [Math.max(1.00, x)] keeps the order. *)
Lemma Math_max_one_mono (a b : float) :
  (a <=? b) = true -> (Math_max 1.00 a <=? Math_max 1.00 b) = true.
Proof.
  intros Hab. destruct (leb_not_nan _ _ Hab) as [Ha Hb].
  unfold Math_max. rewrite (is_nan_false a Ha), (is_nan_false b Hb).
  change (is_nan 1.00) with false. change (get_sign 1.00) with false. cbn [orb].
  destruct (1.00 <? a) eqn:H1a.
  - now rewrite (ltb_leb_trans _ _ _ H1a Hab).
  - assert (H1 : (if a <? 1.00 then 1.00 else 1.00) = 1.00) by now destruct (a <? 1.00).
    rewrite H1. destruct (1.00 <? b) eqn:H1b.
    + now apply ltb_leb.
    + now destruct (b <? 1.00).
Qed.

(** At the elapsed time 0 the exponent of a finite rate is a zero. *)
Lemma exponent_at_zero (k t : float) :
  (0 <=? k) = true -> (k <? infinity) = true ->
  (0 <=? t) = true -> (0 <? t) = false ->
  exists s, Prim2SF (k * t * 2.5) = S754_zero s.
Proof.
  rewrite !leb_spec, !ltb_spec, !mul_spec. unfold SF64mul.
  change (Prim2SF 0) with (S754_zero false).
  change (Prim2SF infinity) with (S754_infinity false).
  change (Prim2SF 2.5) with (S754_finite false 5629499534213120 (-51)).
  destruct (Prim2SF k) as [sk|sk| |sk mk ek]; try discriminate;
    destruct sk; try discriminate;
    destruct (Prim2SF t) as [st|st| |st mt et]; try discriminate;
    try (destruct st; discriminate); intros _ _ _ _; cbn [SFmul]; eauto.
Qed.

(** The exponent [k * t * 2.5] does not grow with [lambda]: at every
    elapsed time above 0, and at 0 when the rate [k] is finite. *)
Lemma exponent_antitone (lambda lambda' t : float) :
  (0 <? lambda) = true -> (lambda <=? lambda') = true ->
  (0 <=? t) = true -> (t <? infinity) = true ->
  (0 <? t) = true \/ (0.065 * (2.0 / lambda) <? infinity) = true ->
  (0.065 * (2.0 / lambda') * t * 2.5 <=? 0.065 * (2.0 / lambda) * t * 2.5) = true.
Proof.
  intros Hl Hll Ht0 Hti Hor.
  destruct (div_two_antitone lambda lambda' Hl Hll) as [Hr Hr0].
  assert (Hk : (0.065 * (2.0 / lambda') <=? 0.065 * (2.0 / lambda)) = true)
    by (apply mul_mono_l; auto).
  assert (Hk0 : (0 <=? 0.065 * (2.0 / lambda')) = true)
    by (change 0 with (0.065 * 0) at 1; apply mul_mono_l; auto).
  destruct (0 <? t) eqn:Ht.
  - apply mul_mono_r; auto.
    + apply mul_nonneg; auto.
    + apply mul_mono_r; auto.
  - destruct Hor as [?|Hfin]; [discriminate|].
    destruct (exponent_at_zero (0.065 * (2.0 / lambda)) t) as [s Hs]; auto.
    { now apply leb_trans with (0.065 * (2.0 / lambda')). }
    destruct (exponent_at_zero (0.065 * (2.0 / lambda')) t) as [s' Hs']; auto.
    { now apply leb_ltb_trans with (0.065 * (2.0 / lambda)). }
    rewrite leb_spec, Hs, Hs'. reflexivity.
Qed.

Section Growth.

Context {host : Host}.

(** The multiplier follows the value that [Math.pow] returns. *)
Lemma sample_follows (lambda lambda' t : float) :
  let M := Math_pow Math_E (0.065 * (2.0 / lambda) * t * 2.5) in
  let M' := Math_pow Math_E (0.065 * (2.0 / lambda') * t * 2.5) in
  (0 <=? M') = true -> (M' <=? M) = true ->
  (sample lambda' t <=? sample lambda t) = true.
Proof.
  intros M M' H0 Hle. unfold sample. fold M M'.
  now apply Math_max_one_mono, toFixed2_mono.
Qed.

(** C7, as amended.  For every elapsed time [t] and volatility [lambda], the
    multiplier sampled is [max(1.00, round2(M))], where [M] is the value that
    [Math.pow(Math.E, k * t * 2.5)] returns, with [k = 0.065 * (2.0 / lambda)]
    computed in binary64, and [round2] rounds: for [0 <= M < 2^46] it is
    [n / 100] for the integer [n] nearest to [100 * M], a half rounded
    upwards (it does not truncate); from 2^46 on it is [M] itself.
    Consequently a higher volatility yields a multiplier that is not larger
    at the same [t]: the multiplier follows [M]; for [0 < lambda <= lambda']
    and [0 <= t < infinity] (at [t = 0] for a finite rate [k]) the exponent
    [k' * t * 2.5] of [lambda'] is not above the exponent of [lambda]; and
    the multiplier of [lambda'] is not above that of [lambda] when [Math.pow]
    returns for the lower exponent a value that is not negative and not
    above the one for the higher exponent, as a monotone [Math.pow] does.
    For the rooms of the server a higher volatility gives a lower rate
    [k]. *)
Theorem sample_rounds_to_nearest :
  (forall lambda t : float,
     let k := 0.065 * (2.0 / lambda) in
     let M := Math_pow Math_E (k * t * 2.5) in
     (0 <=? M) = true -> (M <? 0x1p46) = true ->
     exists (v : Q) (n : Z),
       exact M = Some v /\
       sample lambda t = Math_max 1.00 (of_Z n / 100) /\
       (inject_Z n - (1 # 2) <= 100 * v)%Q /\
       (100 * v < inject_Z n + (1 # 2))%Q)
  /\ (forall lambda t : float,
        let k := 0.065 * (2.0 / lambda) in
        let M := Math_pow Math_E (k * t * 2.5) in
        (0x1p46 <=? M) = true -> sample lambda t = Math_max 1.00 M)
  /\ (forall lambda lambda' t : float,
        let M := Math_pow Math_E (0.065 * (2.0 / lambda) * t * 2.5) in
        let M' := Math_pow Math_E (0.065 * (2.0 / lambda') * t * 2.5) in
        (0 <=? M') = true -> (M' <=? M) = true ->
        (sample lambda' t <=? sample lambda t) = true)
  /\ (forall lambda lambda' t : float,
        (0 <? lambda) = true -> (lambda <=? lambda') = true ->
        (0 <=? t) = true -> (t <? infinity) = true ->
        (0 <? t) = true \/ (0.065 * (2.0 / lambda) <? infinity) = true ->
        let x := 0.065 * (2.0 / lambda) * t * 2.5 in
        let x' := 0.065 * (2.0 / lambda') * t * 2.5 in
        (x' <=? x) = true /\
        (((x' <=? x) = true ->
          (Math_pow Math_E x' <=? Math_pow Math_E x) = true) ->
         (0 <=? Math_pow Math_E x') = true ->
         (sample lambda' t <=? sample lambda t) = true))
  /\ (forall lambda lambda' : float,
        lambda ∈ volatilities -> lambda' ∈ volatilities ->
        (lambda <? lambda') = true ->
        (0.065 * (2.0 / lambda') <? 0.065 * (2.0 / lambda)) = true).
Proof.
  split; [|split; [|split; [|split]]].
  - intros lambda t k M H0 H1.
    destruct (toFixed2_hundredths M H0 H1) as (v & n & Hv & Hn & _ & Hlo & Hhi).
    exists v, n. split; [exact Hv|]. split; [unfold sample; fold k M; now rewrite Hn|].
    split; [exact Hlo|exact Hhi].
  - intros lambda t k M H. unfold sample. fold k M. now rewrite toFixed2_large.
  - exact sample_follows.
  - intros lambda lambda' t Hl Hll Ht Hti Hor x x'.
    assert (Hx : (x' <=? x) = true) by now apply exponent_antitone.
    split; [exact Hx|]. intros Hpow H0.
    apply sample_follows; [exact H0|exact (Hpow Hx)].
  - intros lambda lambda' Hl Hl'. unfold volatilities in Hl, Hl'.
    repeat (apply elem_of_cons in Hl as [->|Hl]);
      try (apply elem_of_nil in Hl; contradiction);
      repeat (apply elem_of_cons in Hl' as [->|Hl']);
      try (apply elem_of_nil in Hl'; contradiction);
      vm_compute; congruence.
Qed.

End Growth.

(** ** The room ETHRX at work *)

(** C2 (counterexample).  In the betting phase user 7 stakes 100 and then
    50: the second command is accepted as well, the balance goes from 900 to
    850, and the bet of 50 replaces the bet of 100. *)
Lemma second_place_bet_is_accepted :
  let s1 := demo_step ethrx (Place_bet 7 100) in
  let s2 := demo_step s1 (Place_bet 7 50) in
  phase s1 = Some BETTING /\
  bets (game s1) !! 7%Z = Some {| amount := 100; cashedOut := false; winAmount := 0 |} /\
  users (db s1) !! 7%Z = Some 900 /\
  emitted s2 =
    emitted s1 ++ [(to_socket 7, bet_success 50); (to_socket 7, balance_update 850)] /\
  bets (game s2) !! 7%Z = Some {| amount := 50; cashedOut := false; winAmount := 0 |} /\
  users (db s2) !! 7%Z = Some 850 /\
  length (transactions (db s2)) = 2%nat.
Proof. vm_compute. repeat split; reflexivity. Qed.

(** C2 (witness): the second command of the counterexample.  The room is in
    its betting phase at the multiplier 1, the amount 50 is positive, and the
    ledger resolves the debit with the balance 850. *)
Lemma place_bet_again_witness :
  let s1 := demo_step ethrx (Place_bet 7 100) in
  let debit := updateUserBalance (db s1) 7 (- 50) "bet" (externalId "ETHRX" (game s1)) in
  let answer := place_bet (game s1) (db s1) 7 "ETHRX" 50 in
  bets (game s1) !! 7%Z = Some {| amount := 100; cashedOut := false; winAmount := 0 |} /\
  (1.0 <? multiplier (game s1)) = false /\
  (50 <=? 0) = false /\
  debit = (Resolved 850, debit.2) /\
  answer =
    (set_bets (game s1)
       (<[7%Z := {| amount := 50; cashedOut := false; winAmount := 0 |}]>
          (bets (game s1))),
     debit.2, [bet_success 50; balance_update 850]) /\
  bets (room_after answer) !! 7%Z
    = Some {| amount := 50; cashedOut := false; winAmount := 0 |} /\
  users debit.2 = <[7%Z := 850]> (users (db s1)) /\
  transactions debit.2 =
    transactions (db s1) ++
    [{| user_id := 7; type := "bet"; Ledger.amount := 50;
        external_id := "room:ETHRX:nonce:2" |}].
Proof.
  intros s1 debit answer.
  assert (Hheld : bets (game s1) !! 7%Z
                  = Some {| amount := 100; cashedOut := false; winAmount := 0 |})
    by (vm_compute; reflexivity).
  assert (Hm : (1.0 <? multiplier (game s1)) = false) by (vm_compute; reflexivity).
  assert (Ha : (50 <=? 0) = false) by (vm_compute; reflexivity).
  assert (Hd : debit = (Resolved 850, debit.2)) by (vm_compute; reflexivity).
  destruct (place_bet_again_replaces_bet (game s1) (db s1) 7 "ETHRX" 50
              {| amount := 100; cashedOut := false; winAmount := 0 |} Hheld)
    as (_ & _ & _ & H & _).
  destruct (H 850 debit.2 Hm Ha Hd) as (H1 & H2 & _ & _).
  split; [exact Hheld|]. split; [exact Hm|]. split; [exact Ha|].
  split; [exact Hd|]. split; [exact H1|]. split; [exact H2|].
  split; vm_compute; reflexivity.
Defined.

(** A stake that is not a number ([undefined] in the command) passes the
    test [amount <= 0]; the ledger cannot log it, the debit is rolled back,
    and the bet is rejected with the error of SQLite. *)
Lemma place_bet_not_a_number_rejected :
  place_bet (game ethrx) (db ethrx) 7 "ETHRX" nan
    = (game ethrx, db ethrx, [bet_error amount_not_null]).
Proof. vm_compute. reflexivity. Qed.

(** C3 (counterexample).  In the betting phase, before the running start
    time, user 7 stakes 100 and cashes out: the command succeeds at the
    multiplier 1 and 100 is credited. *)
Lemma cash_out_in_betting_phase_succeeds :
  let s1 := demo_step ethrx (Place_bet 7 100) in
  let s2 := demo_step s1 (Cash_out 7) in
  phase s1 = Some BETTING /\
  users (db s1) !! 7%Z = Some 900 /\
  emitted s2 =
    emitted s1 ++
    [(to_socket 7, cash_out_success 1 100); (to_socket 7, balance_update 1000)] /\
  bets (game s2) !! 7%Z = Some {| amount := 100; cashedOut := true; winAmount := 100 |} /\
  users (db s2) !! 7%Z = Some 1000.
Proof. vm_compute. repeat split; reflexivity. Qed.

(** C5 (counterexample).  The betting timeout fires at 7003, after the
    running start time 7000 announced; until the interval first fires the
    multiplier is still 1, and the bet of user 7 is accepted and debited in
    the running phase. *)
Lemma place_bet_in_running_phase_accepted :
  let s1 := demo_step ethrx (Timeout_fires 7003 draws_half) in
  let s2 := demo_step s1 (Place_bet 7 100) in
  startTime (game s1) = 7000%Z /\
  phase s1 = Some RUNNING /\
  multiplier (game s1) = 1 /\
  emitted s2 =
    emitted s1 ++ [(to_socket 7, bet_success 100); (to_socket 7, balance_update 900)] /\
  bets (game s2) !! 7%Z = Some {| amount := 100; cashedOut := false; winAmount := 0 |} /\
  users (db s2) !! 7%Z = Some 900.
Proof. vm_compute. repeat split; reflexivity. Qed.

(** C5 (witness): a bet sent to the running room at multiplier 1.38. *)
Lemma place_bet_closed_above_one_witness :
  (1.0 <? multiplier (game ethrx_running)) = true /\
  place_bet (game ethrx_running) (db ethrx_running) 8 "ETHRX" 10
    = (game ethrx_running, db ethrx_running, [bet_error "Game already started"]).
Proof.
  split; [vm_compute; reflexivity|].
  apply (proj1 (place_bet_closed_above_one (game ethrx_running) (db ethrx_running)
                  8 "ETHRX" 10)).
  vm_compute; reflexivity.
Defined.

(** C6 (counterexample).  User 7 cashes out at 1.38; the round crashes; the
    second [cash_out] for the same bet is answered "Game not running", not
    "Already cashed out". *)
Lemma cash_out_again_after_crash :
  let s1 := demo_step ethrx_running (Cash_out 7) in
  let s2 := demo_step s1 (Interval_fires 10000) in
  let s3 := demo_step s2 (Cash_out 7) in
  emitted s1 =
    emitted ethrx_running ++
    [(to_socket 7, cash_out_success 1.38 138); (to_socket 7, balance_update 1038)] /\
  phase s2 = Some CRASHED /\
  bets (game s2) !! 7%Z = Some {| amount := 100; cashedOut := true; winAmount := 138 |} /\
  emitted s3 = emitted s2 ++ [(to_socket 7, error "Game not running")] /\
  game s3 = game s2 /\ db s3 = db s2.
Proof. vm_compute. repeat split; reflexivity. Qed.

(** C6 (witness): the bet of user 7 in the running room. *)
Lemma cash_out_at_most_once_witness :
  bets (game ethrx_running) !! 7%Z
    = Some {| amount := 100; cashedOut := false; winAmount := 0 |} /\
  forall m w,
    In (cash_out_success m w)
      (emits (cash_out (game ethrx_running) (db ethrx_running) 7 "ETHRX")) ->
    m = multiplier (game ethrx_running) /\
    w = Math_floor (100 * multiplier (game ethrx_running)).
Proof.
  split; [vm_compute; reflexivity|].
  intros m w Hin.
  destruct (cash_out_at_most_once (game ethrx_running) (db ethrx_running) 7 "ETHRX"
              {| amount := 100; cashedOut := false; winAmount := 0 |})
    as [_ H]; [vm_compute; reflexivity|].
  destruct (H m w Hin) as (_ & Hm & Hw & _). split; assumption.
Defined.

(** C9 (counterexample).  The interval callback finds the sample 2.65 above
    the crash point 1.98 and ends the round; the [cash_out] of user 7, whose
    bet is live, is then answered "Game not running", not "Crashed!". *)
Lemma cash_out_after_detection_not_running :
  (crashPoint (game ethrx_crashed) <=? multiplier (game ethrx_crashed)) = true /\
  emitted ethrx_crashed =
    emitted ethrx_running ++
    [(to_room "ETHRX",
      crash 1.98 "aaaabbbbccccddddeeeeffff0000111122223333444455556666777788889999")] /\
  bets (game ethrx_crashed) !! 7%Z
    = Some {| amount := 100; cashedOut := false; winAmount := 0 |} /\
  cash_out (game ethrx_crashed) (db ethrx_crashed) 7 "ETHRX"
    = (game ethrx_crashed, db ethrx_crashed, [error "Game not running"]).
Proof. vm_compute. repeat split; reflexivity. Qed.

(** C9 (witness): the same crash, with two commands before the [cash_out]. *)
Lemma cash_out_after_crash_detected_witness :
  let s1 := demo_step ethrx_running (Interval_fires 10000) in
  let s2 := demo_run s1 [Place_bet 8 10; Cash_out 7] in
  timer ethrx_running = TickInterval 7003 /\
  (crashPoint (game s1) <=? multiplier (game s1)) = true /\
  isRunning (game s1) = false /\
  phase s2 = Some CRASHED /\
  cash_out (game s2) (db s2) 7 "ETHRX" = (game s2, db s2, [error "Game not running"]).
Proof.
  intros s1 s2.
  split; [vm_compute; reflexivity|]. split; [vm_compute; reflexivity|].
  apply (@cash_out_after_crash_detected demo_host
           ethrx_running 7003 10000 [Place_bet 8 10; Cash_out 7] 7 "ETHRX").
  - vm_compute; reflexivity.
  - vm_compute; reflexivity.
  - repeat constructor.
Defined.

(** C10 (witness): in the running room, at multiplier 1.38, a stake of -5
    is answered "Game already started". *)
Lemma place_bet_tests_multiplier_first_witness :
  (1.00 <=? multiplier (game ethrx_running)) = true /\
  place_bet (game ethrx_running) (db ethrx_running) 7 "ETHRX" (-5)
    = (game ethrx_running, db ethrx_running, [bet_error "Game already started"]).
Proof.
  split; [vm_compute; reflexivity|].
  destruct (place_bet_tests_multiplier_first (game ethrx_running) (db ethrx_running)
              7 "ETHRX" (-5)) as [H _]; [vm_compute; reflexivity|].
  apply H; vm_compute; reflexivity.
Defined.

(** ** The first sample of ETHRX *)

(** C7 (counterexample).  For ETHRX ([lambda = 1]) 50 ms after the loop
    started, [Math.pow] returns 1.0163...: the multiplier sampled is 1.02,
    while truncating to two decimal places gives 1.01.  And for the
    volatility 2^-1074, the least number above 0, the rate [k] is infinite:
    at [t = 0] the exponent [k * 0 * 2.5] and the multiplier are NaN, while
    the higher volatility 1 has the multiplier 1. *)
Lemma sample_is_not_truncated :
  let t := of_Z 50 / 1000 in
  @Math_pow demo_host Math_E (0.065 * (2.0 / 1.0) * t * 2.5) = 1.016382749334114 /\
  @sample demo_host 1.0 t = 1.02 /\
  @truncated_sample demo_host 1.0 t = 1.01 /\
  (0 <? 0x1p-1074) = true /\
  (0x1p-1074 <? 1.0) = true /\
  is_nan (0.065 * (2.0 / 0x1p-1074) * 0 * 2.5) = true /\
  is_nan (@sample demo_host 0x1p-1074 0) = true /\
  @sample demo_host 1.0 0 = 1 /\
  (@sample demo_host 1.0 0 <=? @sample demo_host 0x1p-1074 0) = false.
Proof. vm_compute. repeat split; reflexivity. Qed.

(** C7 (witness): ETHRX at 50 ms, where [Math.pow] returns 1.0163..., against
    the slower room CORLA, where it returns 1.0065...: the multipliers are
    1.02 and 1.01. *)
Lemma sample_rounds_to_nearest_witness :
  let t := of_Z 50 / 1000 in
  let x := 0.065 * (2.0 / 1.0) * t * 2.5 in
  let x' := 0.065 * (2.0 / 2.5) * t * 2.5 in
  let M := @Math_pow demo_host Math_E x in
  let M' := @Math_pow demo_host Math_E x' in
  ((0 <=? M) = true /\ (M <? 0x1p46) = true /\
   exists (v : Q) (n : Z),
     exact M = Some v /\
     @sample demo_host 1.0 t = Math_max 1.00 (of_Z n / 100) /\
     (inject_Z n - (1 # 2) <= 100 * v)%Q /\
     (100 * v < inject_Z n + (1 # 2))%Q) /\
  ((0 <? 1.0) = true /\ (1.0 <=? 2.5) = true /\
   (0 <=? t) = true /\ (t <? infinity) = true /\ (0 <? t) = true /\
   (x' <=? x) = true /\ (M' <=? M) = true /\ (0 <=? M') = true /\
   (@sample demo_host 2.5 t <=? @sample demo_host 1.0 t) = true).
Proof.
  intros t x x' M M'.
  assert (H0 : (0 <=? M) = true) by (vm_compute; reflexivity).
  assert (H1 : (M <? 0x1p46) = true) by (vm_compute; reflexivity).
  assert (Hl : (0 <? 1.0) = true) by (vm_compute; reflexivity).
  assert (Hll : (1.0 <=? 2.5) = true) by (vm_compute; reflexivity).
  assert (Ht0 : (0 <=? t) = true) by (vm_compute; reflexivity).
  assert (Ht : (0 <? t) = true) by (vm_compute; reflexivity).
  assert (Hti : (t <? infinity) = true) by (vm_compute; reflexivity).
  assert (Hle : (M' <=? M) = true) by (vm_compute; reflexivity).
  assert (H0' : (0 <=? M') = true) by (vm_compute; reflexivity).
  destruct (@sample_rounds_to_nearest demo_host) as (HA & _ & _ & HD & _).
  split.
  - split; [exact H0|]. split; [exact H1|]. exact (HA 1.0 t H0 H1).
  - destruct (HD 1.0 2.5 t Hl Hll Ht0 Hti (or_introl Ht)) as [Hx Hs].
    split; [exact Hl|]. split; [exact Hll|]. split; [exact Ht0|]. split; [exact Hti|].
    split; [exact Ht|]. split; [exact Hx|]. split; [exact Hle|]. split; [exact H0'|].
    apply Hs; [intros _; exact Hle|exact H0'].
Defined.

(** C3 (witness): the cooldown of the first round of ETHRX, where the
    [cash_out] of user 7 is refused; and its betting phase, where user 7,
    having staked 100, is paid [floor(100 * 1.00)] and has the balance 1000
    again. *)
Lemma cash_out_gated_by_isRunning_witness :
  let s1 := demo_run ethrx [Place_bet 7 100] in
  (phase ethrx_crashed = Some CRASHED /\
   cash_out (game ethrx_crashed) (db ethrx_crashed) 7 "ETHRX"
     = (game ethrx_crashed, db ethrx_crashed, [error "Game not running"])) /\
  (phase s1 = Some BETTING /\
   bets (game s1) !! 7%Z = Some {| amount := 100; cashedOut := false; winAmount := 0 |} /\
   multiplier (game s1) = 1.00 /\
   updateUserBalance (db s1) 7 100 "win" (externalId "ETHRX" (game s1))
     = (Resolved 1000, (db (demo_step s1 (Cash_out 7)))) /\
   cash_out (game s1) (db s1) 7 "ETHRX" =
     (set_bets (game s1)
        {[ 7%Z := {| amount := 100; cashedOut := true; winAmount := 100 |} ]},
      db (demo_step s1 (Cash_out 7)),
      [cash_out_success 1.00 100; balance_update 1000])).
Proof.
  intros s1. split.
  - split; [vm_compute; reflexivity|].
    apply (proj1 (@cash_out_gated_by_isRunning demo_host "$ETHRX" 1.0 "ETHRX"
                    draws_half draws_sweep 1000 db_1000
                    (first_inputs ++ [Interval_fires 10000]) 7 "ETHRX")).
    vm_compute; reflexivity.
  - assert (Hph : phase s1 = Some BETTING) by (vm_compute; reflexivity).
    assert (Hb : bets (game s1) !! 7%Z
                 = Some {| amount := 100; cashedOut := false; winAmount := 0 |})
      by (vm_compute; reflexivity).
    assert (Hu : updateUserBalance (db s1) 7 100 "win" (externalId "ETHRX" (game s1))
                 = (Resolved 1000, (db (demo_step s1 (Cash_out 7)))))
      by (vm_compute; reflexivity).
    destruct (proj2 (proj2 (@cash_out_gated_by_isRunning demo_host "$ETHRX" 1.0 "ETHRX"
                              draws_half draws_sweep 1000 db_1000
                              [Place_bet 7 100] 7 "ETHRX"))
                {| amount := 100; cashedOut := false; winAmount := 0 |}
                (or_introl Hph) Hb eq_refl) as (H1 & H2 & _).
    destruct (H1 Hph) as [Hm Hw].
    split; [exact Hph|]. split; [exact Hb|]. split; [exact Hm|]. split; [exact Hu|].
    destruct (H2 1000 (db (demo_step s1 (Cash_out 7))) Hu) as [H3 _].
    etransitivity; [exact H3|]. vm_compute. reflexivity.
Defined.

(** C4 (witness): the first round of ETHRX ends with the crash point 1.98,
    the one derived from the seed disclosed and the nonce 2. *)
Lemma crash_point_is_derived_witness :
  last (emitted ethrx_crashed)
    = Some (to_room "ETHRX",
            crash 1.98
              "aaaabbbbccccddddeeeeffff0000111122223333444455556666777788889999") /\
  @derived_crash_point demo_host
    "aaaabbbbccccddddeeeeffff0000111122223333444455556666777788889999" 2 = 1.98 /\
  audit (fun nonce _ multiplier serverSeed =>
           multiplier = @derived_crash_point demo_host serverSeed nonce)
    None (emitted ethrx_crashed).
Proof.
  split; [vm_compute; reflexivity|]. split; [vm_compute; reflexivity|].
  exact (proj2 (proj2 (@crash_point_is_derived demo_host "$ETHRX" 1.0 "ETHRX"
                         draws_half draws_sweep 1000 db_1000
                         (first_inputs ++ [Interval_fires 10000])))).
Defined.

(** C8 (witness): the hash published when the first round of ETHRX started
    is the digest of the seed disclosed when it crashed. *)
Lemma commitment_is_hash_of_seed_witness :
  last_start None (emitted ethrx_crashed)
    = Some (2%Z, @SHA256 demo_host
                   "aaaabbbbccccddddeeeeffff0000111122223333444455556666777788889999") /\
  audit (fun _ hash _ serverSeed => hash = @SHA256 demo_host serverSeed)
    None (emitted ethrx_crashed).
Proof.
  split; [vm_compute; reflexivity|].
  exact (proj1 (@commitment_is_hash_of_seed demo_host "$ETHRX" 1.0 "ETHRX"
                  draws_half draws_sweep 1000 db_1000
                  (first_inputs ++ [Interval_fires 10000]))).
Defined.
